(** * grammar_commons.grammar_utils: expansion of condensed grammar notation

    A shallow embedding of [grammar_commons/grammar_utils.py] and the
    properties of its bracket validator, alternative splitter, substitution
    step and round-based expansion engine.

    Modelling conventions.
    - A Python [str] is a list of characters; a character is a code point
      below 256 ([ascii]).  String literals are written [$"..."].
    - A Python [set] of strings is a [gset (list ascii)].  The order in which
      Python iterates over a set is unspecified, so every loop over a set
      runs over [order X], where [order] is any function listing the
      elements of a set exactly once.
    - The alphabet of a language is the membership test of its character
      class, and the module's four patterns are regular expressions over
      that class, run by a backtracking matcher.
    - [logging] calls are recorded as a list of [log_record]s returned next
      to the value.
    - An exception is an explicit outcome, and so is running out of
      frames: [expand_bnf_recursive] takes the number of nested calls it
      may make. *)

From Stdlib Require Import Ascii String.
From stdpp Require Import base list sorting gmap strings.

Set Warnings "-clear-no-such-hyp,-notation-incompatible-prefix".

Local Open Scope char_scope.
Local Open Scope list_scope.

Abbreviation str := (list ascii).
Notation "$ s" := (list_ascii_of_string s) (at level 1, s at level 0, format "$ s").

(** ** Characters of the notation *)

Definition is_opening (c : ascii) : bool := Ascii.eqb c "(" || Ascii.eqb c "[".
Definition is_closing (c : ascii) : bool := Ascii.eqb c ")" || Ascii.eqb c "]".
Definition is_bracket (c : ascii) : bool := is_opening c || is_closing c.
Definition is_punct (c : ascii) : bool := is_bracket c || Ascii.eqb c "|".

(** The closer that belongs to an opener (the [closing] dictionary read
    through the [opening] one). *)
Definition closer_of (c : ascii) : ascii :=
  if Ascii.eqb c "(" then ")" else "]".

(** ** Diagnostics *)

(** What the module logs, one constructor per message, with the values
    the message is formatted from.  The wording, and with it the ordinal
    suffix of [string_utils.number_position_suffix], is left out. *)
Inductive log_record : Type :=
| LanguageNotSupported                       (* 'Language code provided is not supported.' *)
| NoBnfProvided                              (* 'No BNF(s) provided to expand.' *)
| ClosingAsOpener (bnf : str) (closer : ascii) (index : nat)
| Mismatch (bnf : str) (index : nat) (expected_for received : ascii)
| MissingClosing (closer opener : ascii) (index : nat).

(** ** validate_bnf_groups *)

(** The warnings of the final loop over the stack that is left.  Only the
    two openers are ever pushed; an entry of another kind would log
    nothing. *)
Definition missing_closing (entry : ascii * nat) : list log_record :=
  (if Ascii.eqb entry.1 "(" then [MissingClosing ")" entry.1 entry.2] else []) ++
  (if Ascii.eqb entry.1 "[" then [MissingClosing "]" entry.1 entry.2] else []).

(** The loop of [validate_bnf_groups] over the characters that remain.
    [group_stack] has its top (Python's [group_stack[-1]]) at the head, so
    the final loop runs over its reversal. *)
Fixpoint validate_loop (bnf rest : str) (character_index : nat)
    (group_stack : list (ascii * nat)) : bool * list log_record :=
  match rest with
  | [] =>
      match group_stack with
      | [] => (true, [])
      | _ => (false, concat (map missing_closing (rev group_stack)))
      end
  | char :: rest' =>
      if is_opening char then
        validate_loop bnf rest' (S character_index) ((char, character_index) :: group_stack)
      else if Ascii.eqb char ")" then
        match group_stack with
        | [] => (false, [ClosingAsOpener bnf ")" character_index])
        | (top, _) :: below =>
            if Ascii.eqb top "(" then validate_loop bnf rest' (S character_index) below
            else if Ascii.eqb top "[" then (false, [Mismatch bnf character_index top ")"])
            else validate_loop bnf rest' (S character_index) group_stack
        end
      else if Ascii.eqb char "]" then
        match group_stack with
        | [] => (false, [ClosingAsOpener bnf "]" character_index])
        | (top, _) :: below =>
            if Ascii.eqb top "[" then validate_loop bnf rest' (S character_index) below
            else if Ascii.eqb top "(" then (false, [Mismatch bnf character_index top "]"])
            else validate_loop bnf rest' (S character_index) group_stack
        end
      else validate_loop bnf rest' (S character_index) group_stack
  end.

Definition validate_bnf_groups (bnf : str) : bool * list log_record :=
  validate_loop bnf bnf 0 [].

(** What the specification asks of a string: every opener is closed by the
    closer of its own kind, and the pairs do not cross. *)
Inductive well_nested : str → Prop :=
| wn_nil : well_nested []
| wn_other c s : is_bracket c = false → well_nested s → well_nested (c :: s)
| wn_pair o s1 s2 :
    is_opening o = true → well_nested s1 → well_nested s2 →
    well_nested (o :: s1 ++ closer_of o :: s2).

(** A suffix that closes, innermost first, every opener of a stack. *)
Fixpoint closes (openers : list ascii) (s : str) : Prop :=
  match openers with
  | [] => well_nested s
  | o :: below => ∃ s1 s2, s = s1 ++ closer_of o :: s2 ∧ well_nested s1 ∧ closes below s2
  end.

(** * Strings *)

(** ** The [str] methods the module calls *)

(** [str.lower()] on code points below 256: the ASCII capitals and the
    Latin-1 capitals U+00C0..U+00DE (but not the multiplication sign
    U+00D7) move up by 32. *)
Definition lower_char (c : ascii) : ascii :=
  let n := nat_of_ascii c in
  if ((65 <=? n) && (n <=? 90))%nat then ascii_of_nat (n + 32)
  else if ((192 <=? n) && (n <=? 222) && negb (n =? 215))%nat then ascii_of_nat (n + 32)
  else c.

Definition lower (s : str) : str := map lower_char s.

(** The characters [str.strip()] removes: those for which [str.isspace()]
    holds. *)
Definition is_space (c : ascii) : bool :=
  let n := nat_of_ascii c in
  ((9 <=? n) && (n <=? 13) || (28 <=? n) && (n <=? 32) || (n =? 133) || (n =? 160))%nat.

Fixpoint lstrip (s : str) : str :=
  match s with
  | [] => []
  | c :: s' => if is_space c then lstrip s' else s
  end.

Definition rstrip (s : str) : str := rev (lstrip (rev s)).

Definition strip (s : str) : str := rstrip (lstrip s).

(** [s.split(sep)] for a separator of one character. *)
Fixpoint split (sep : ascii) (s : str) : list str :=
  match s with
  | [] => [[]]
  | c :: s' =>
      if Ascii.eqb c sep then [] :: split sep s'
      else match split sep s' with
           | piece :: pieces => (c :: piece) :: pieces
           | [] => [[c]]
           end
  end.

Fixpoint starts_with (old s : str) : bool :=
  match old, s with
  | [], _ => true
  | _ :: _, [] => false
  | a :: old', b :: s' => Ascii.eqb a b && starts_with old' s'
  end.

(** [s.replace(old, new, 1)]: the leftmost occurrence of [old] gives way to
    [new]; an empty [old] occurs at the very start. *)
Fixpoint replace_once (s old new : str) : str :=
  if starts_with old s then new ++ drop (length old) s
  else match s with
       | [] => []
       | c :: s' => c :: replace_once s' old new
       end.

(** [s.replace('  ', ' ')]: a scan from the left that turns each pair of
    spaces it meets into one space and goes on after the pair. *)
Fixpoint replace_double_space (s : str) : str :=
  match s with
  | [] => []
  | c1 :: s1 =>
      match s1 with
      | c2 :: s2 =>
          if Ascii.eqb c1 " " && Ascii.eqb c2 " " then " " :: replace_double_space s2
          else c1 :: replace_double_space s1
      | [] => [c1]
      end
  end.

(** Lexicographic order by code point, the order of [sorted] on strings. *)
Fixpoint str_leb (a b : str) : bool :=
  match a, b with
  | [], _ => true
  | _ :: _, [] => false
  | x :: a', y :: b' =>
      if (nat_of_ascii x <? nat_of_ascii y)%nat then true
      else if (nat_of_ascii y <? nat_of_ascii x)%nat then false
      else str_leb a' b'
  end.

Definition str_le (a b : str) : Prop := str_leb a b = true.
Definition str_lt (a b : str) : Prop := str_le a b ∧ a ≠ b.

#[global] Instance str_le_dec : RelDecision str_le.
Proof. intros a b. unfold str_le. apply _. Defined.

Definition sorted (l : list str) : list str := merge_sort str_le l.

(** ** string_utils *)

(** Modelled from the spec: [string_utils.remove_from_string], the String
    Cleaner [stripChars(s, chars)], whose source is not part of the
    sources at hand.  It deletes from [string] every occurrence of every
    symbol of [symbols_to_remove]. *)
Definition remove_from_string (string : str) (symbols_to_remove : list ascii) : str :=
  filter (λ c, c ∉ symbols_to_remove) string.

(** * Regular expressions *)

(** The fragment of the pattern language the module's four patterns are
    written in.  A character class is given by its membership test. *)
Inductive regex : Type :=
| Lit (c : ascii)
| Class (p : ascii → bool)
| Seq (r1 r2 : regex)
| Alt (r1 r2 : regex)
| Star (r : regex).

Definition Plus (r : regex) : regex := Seq r (Star r).

(** The loop of a greedy repetition whose body is matched by [body]: one
    more iteration is tried before the rest of the pattern.  An iteration
    has to consume a character, as the engine's guard against empty loops
    has it, so [length s] rounds of [fuel] are enough. *)
Fixpoint repeat_greedy (body : str → (str → option str) → option str)
    (k : str → option str) (fuel : nat) (s : str) : option str :=
  match fuel with
  | 0 => k s
  | S fuel' =>
      match body s (λ s', if decide (length s' < length s)
                          then repeat_greedy body k fuel' s' else None) with
      | Some rest => Some rest
      | None => k s
      end
  end.

(** A backtracking matcher in continuation-passing style.  [backtrack r s k]
    matches [r] against a prefix of [s] and hands what is left to [k]; when
    [k] refuses, the next way of matching is tried, alternatives from left
    to right and repetitions greedily. *)
Fixpoint backtrack (r : regex) (s : str) (k : str → option str) {struct r} : option str :=
  match r with
  | Lit c =>
      match s with
      | x :: s' => if Ascii.eqb x c then k s' else None
      | [] => None
      end
  | Class p =>
      match s with
      | x :: s' => if p x then k s' else None
      | [] => None
      end
  | Seq r1 r2 => backtrack r1 s (λ s', backtrack r2 s' k)
  | Alt r1 r2 =>
      match backtrack r1 s k with
      | Some rest => Some rest
      | None => backtrack r2 s k
      end
  | Star r1 => repeat_greedy (backtrack r1) k (length s) s
  end.

(** [pattern.search(s)]: the text of the first match, starting points tried
    from the left. *)
Fixpoint search (r : regex) (s : str) : option str :=
  match backtrack r s Some with
  | Some rest => Some (take (length s - length rest) s)
  | None =>
      match s with
      | [] => None
      | _ :: s' => search r s'
      end
  end.

(** [pattern.fullmatch(s)]: a match that starts at the beginning and ends at
    the end; its text is then [s] itself. *)
Definition fullmatch (r : regex) (s : str) : option str :=
  match backtrack r s (λ rest, match rest with [] => Some [] | _ => None end) with
  | Some _ => Some s
  | None => None
  end.

(** The strings a pattern denotes. *)
Inductive matches : regex → str → Prop :=
| matches_lit c : matches (Lit c) [c]
| matches_class p c : p c = true → matches (Class p) [c]
| matches_seq r1 r2 s1 s2 : matches r1 s1 → matches r2 s2 → matches (Seq r1 r2) (s1 ++ s2)
| matches_alt_l r1 r2 s : matches r1 s → matches (Alt r1 r2) s
| matches_alt_r r1 r2 s : matches r2 s → matches (Alt r1 r2) s
| matches_star_nil r : matches (Star r) []
| matches_star_more r s1 s2 : matches r s1 → matches (Star r) s2 → matches (Star r) (s1 ++ s2).

(** ** The patterns of the module *)

Section patterns.

Variable language_regex : ascii → bool.

(** A run of alphabet characters: [language_regex] under a star. *)
Definition letters : regex := Star (Class language_regex).

(** The alternation shared by the first three patterns.  Its three
    branches are: a run; any number of "run, pipe, run"; any number of
    "run, pipe, run, pipe, run". *)
Definition alternation : regex :=
  Alt letters
    (Alt (Star (Seq letters (Seq (Lit "|") letters)))
         (Star (Seq letters (Seq (Lit "|") (Seq letters (Seq (Lit "|") letters)))))).

Definition GROUPS_REGEX : regex := Seq (Lit "(") (Seq alternation (Lit ")")).
Definition OPTIONALS_REGEX : regex := Seq (Lit "[") (Seq alternation (Lit "]")).
Definition OPTIONS_REGEX : regex := alternation.
Definition WORDS_REGEX : regex := Plus (Class language_regex).

End patterns.

(** * Outcomes and logging *)

(** How a call ends: with a value, with the [AttributeError] of reading
    [.group] off a failed search, or with more nested calls than the
    interpreter was given frames for. *)
Inductive outcome (A : Type) : Type :=
| Returns (a : A)
| Raises
| Overflows.
Arguments Returns {A} a.
Arguments Raises {A}.
Arguments Overflows {A}.

(** A computation that logs: its outcome and the records it logged, oldest
    first. *)
Definition run (A : Type) : Type := outcome A * list log_record.

#[global] Instance run_ret : MRet run := λ A a, (Returns a, []).

#[global] Instance run_bind : MBind run := λ A B f m,
  match m.1 with
  | Returns a => let r := f a in (r.1, m.2 ++ r.2)
  | Raises => (Raises, m.2)
  | Overflows => (Overflows, m.2)
  end.

Definition logging (record : log_record) : run unit := (Returns tt, [record]).

(** The records a callee has logged already. *)
Definition logging_of (records : list log_record) : run unit := (Returns tt, records).

(** * grammar_utils *)

Definition split_options (string : str) : list str :=
  let cleaned_string := remove_from_string string ["("; ")"; "["; "]"] in
  map strip (split "|" cleaned_string).

Definition get_potential_options (bnf matched_value : str) : gset str :=
  let matched_options := split_options matched_value in
  foldl (λ expansions option, expansions ∪ {[replace_once bnf matched_value option]})
        ∅ matched_options.

Section engine.

(** Modelled from the spec: [lang_utils.LANGUAGE_UNICODE_ALPHABET], the
    Alphabet Provider, whose source is not part of the sources at hand: a
    dictionary from lower-case language identifiers to the character class
    of the language's word characters. *)
Variable LANGUAGE_UNICODE_ALPHABET : str → option (ascii → bool).

(** The order in which a set is iterated. *)
Variable order : gset str → list str.

Definition is_words_only (string language_code : str) : run bool :=
  match LANGUAGE_UNICODE_ALPHABET (lower language_code) with
  | None => _ ← logging LanguageNotSupported; mret false
  | Some language_regex =>
      match search (WORDS_REGEX language_regex) string with
      | None => (Raises, [])
      | Some atomic_words => mret (bool_decide (atomic_words = string))
      end
  end.

Fixpoint are_all_words_only_loop (sentences : list str) (language_code : str) : run bool :=
  match sentences with
  | [] => mret true
  | sentence :: sentences' =>
      words_only ← is_words_only sentence (lower language_code);
      if negb words_only then mret false
      else are_all_words_only_loop sentences' language_code
  end.

Definition are_all_words_only (sentences : gset str) (language_code : str) : run bool :=
  are_all_words_only_loop (order sentences) language_code.

(** The body of the first loop of [expand_bnf_recursive]. *)
Definition expand_options (language_regex : ascii → bool)
    (option_expansions : gset str) (expanding : str) : gset str :=
  match fullmatch (OPTIONS_REGEX language_regex) expanding with
  | None => option_expansions ∪ {[expanding]}
  | Some atomic_options =>
      if decide (atomic_options = []) then option_expansions ∪ {[expanding]}
      else option_expansions ∪ list_to_set (split_options atomic_options)
  end.

(** What the second loop does with a candidate that is valid. *)
Definition expand_group (language_regex : ascii → bool)
    (group_expansions : gset str) (expanding : str) : gset str :=
  match search (GROUPS_REGEX language_regex) expanding with
  | None => group_expansions ∪ {[expanding]}
  | Some group =>
      if decide (group = []) then group_expansions ∪ {[expanding]}
      else group_expansions ∪ get_potential_options expanding group
  end.

(** The second loop.  [None] stands for the [return list()] of its [else]
    branch. *)
Fixpoint expand_groups (language_regex : ascii → bool)
    (group_expansions : gset str) (pending : list str)
    : option (gset str) * list log_record :=
  match pending with
  | [] => (Some group_expansions, [])
  | expanding :: pending' =>
      let valid := validate_bnf_groups expanding in
      if valid.1 then
        let rest :=
          expand_groups language_regex
            (expand_group language_regex group_expansions expanding) pending' in
        (rest.1, valid.2 ++ rest.2)
      else (None, valid.2)
  end.

(** The body of the third loop. *)
Definition expand_optionals (language_regex : ascii → bool)
    (group_optional_expansions : gset str) (expanding : str) : gset str :=
  match search (OPTIONALS_REGEX language_regex) expanding with
  | None => group_optional_expansions ∪ {[expanding]}
  | Some optional =>
      if decide (optional = []) then group_optional_expansions ∪ {[expanding]}
      else
        let tmp_new_expansion := replace_once expanding optional [] in
        (group_optional_expansions ∪ {[replace_double_space tmp_new_expansion]})
          ∪ get_potential_options expanding optional
  end.

(** One pass of the three loops: the candidates after the loop over the
    optionals, or [None] when the second loop met a candidate that is not
    valid. *)
Definition expansion_round (language_regex : ascii → bool) (to_be_expanded : gset str)
    : option (gset str) * list log_record :=
  let option_expansions :=
    foldl (expand_options language_regex) ∅ (order to_be_expanded) in
  let groups := expand_groups language_regex ∅ (order option_expansions) in
  match groups.1 with
  | None => (None, groups.2)
  | Some group_expansions =>
      (Some (foldl (expand_optionals language_regex) ∅ (order group_expansions)), groups.2)
  end.

(** [expand_bnf_recursive], with [frames] bounding the depth of the
    recursion. *)
Fixpoint expand_bnf_recursive (frames : nat) (to_be_expanded : gset str)
    (language_code : str) : run (list str) :=
  match frames with
  | 0 => (Overflows, [])
  | S frames' =>
      match LANGUAGE_UNICODE_ALPHABET (lower language_code) with
      | None => _ ← logging LanguageNotSupported; mret []
      | Some language_regex =>
          if decide (to_be_expanded = ∅) then _ ← logging NoBnfProvided; mret []
          else
            let round := expansion_round language_regex to_be_expanded in
            match round.1 with
            | None => (Returns [], round.2)
            | Some group_optional_expansions =>
                _ ← logging_of round.2;
                words_only ← are_all_words_only group_optional_expansions (lower language_code);
                if negb words_only then
                  expand_bnf_recursive frames' group_optional_expansions language_code
                else mret (sorted (order group_optional_expansions))
            end
      end
  end.

End engine.

(** * Notions the properties are stated with *)

(** The separator between every two pieces. *)
Fixpoint join (sep : ascii) (pieces : list str) : str :=
  match pieces with
  | [] => []
  | [piece] => piece
  | piece :: pieces' => piece ++ sep :: join sep pieces'
  end.

(** The characters some literal or class of a pattern can match. *)
Fixpoint accepts_char (r : regex) (a : ascii) : bool :=
  match r with
  | Lit c => Ascii.eqb a c
  | Class p => p a
  | Seq r1 r2 | Alt r1 r2 => accepts_char r1 a || accepts_char r2 a
  | Star r1 => accepts_char r1 a
  end.

(** The body of the second branch of the alternation: a run, a pipe, a
    run. *)
Definition pair_of_runs (L : ascii → bool) : regex :=
  Seq (letters L) (Seq (Lit "|") (letters L)).

(** Two patterns of the same shape whose classes agree on the characters
    [chars]. *)
Fixpoint regex_agree (chars : list ascii) (r r' : regex) : Prop :=
  match r, r' with
  | Lit c, Lit c' => c = c'
  | Class p, Class p' => ∀ a, a ∈ chars → p a = p' a
  | Seq r1 r2, Seq r1' r2' => regex_agree chars r1 r1' ∧ regex_agree chars r2 r2'
  | Alt r1 r2, Alt r1' r2' => regex_agree chars r1 r1' ∧ regex_agree chars r2 r2'
  | Star r1, Star r1' => regex_agree chars r1 r1'
  | _, _ => False
  end.

(** A character of the alphabet or a pipe. *)
Definition letter_or_pipe (L : ascii → bool) (a : ascii) : Prop :=
  L a = true ∨ a = "|".

(** What [is_words_only] answers once the language is known to be
    supported. *)
Definition words_only (L : ascii → bool) (string : str) : outcome bool :=
  match search (WORDS_REGEX L) string with
  | None => Raises
  | Some atomic_words => Returns (bool_decide (atomic_words = string))
  end.

(** The answer of [are_all_words_only] over the candidates in the order
    they are visited, for a supported language. *)
Fixpoint all_words_only (L : ascii → bool) (sentences : list str) : outcome bool :=
  match sentences with
  | [] => Returns true
  | sentence :: sentences' =>
      match words_only L sentence with
      | Returns true => all_words_only L sentences'
      | other => other
      end
  end.

(** What one round makes of one candidate, loop after loop. *)
Definition round_of (L : ascii → bool) (c x : str) : Prop :=
  ∃ y z, y ∈ expand_options L ∅ c ∧ z ∈ expand_group L ∅ y ∧
         x ∈ expand_optionals L ∅ z.

(** A sample Alphabet Provider to run the engine on: one language, [en],
    whose word characters are the ASCII letters and the space. *)
Definition english (c : ascii) : bool :=
  let n := nat_of_ascii c in
  ((97 <=? n) && (n <=? 122) || (65 <=? n) && (n <=? 90) || (n =? 32))%nat.

Definition sample_alphabet (language : str) : option (ascii → bool) :=
  if decide (language = $"en") then Some english else None.

(** A call on [W] ran a round without giving up, found a candidate that is
    not word-only and went on with the candidates [W'] of the round. *)
Definition recurses (LANGUAGE_UNICODE_ALPHABET : str → option (ascii → bool))
    (order : gset str → list str) (language_code : str) (W W' : gset str) : Prop :=
  ∃ L, LANGUAGE_UNICODE_ALPHABET (lower language_code) = Some L ∧ W ≠ ∅ ∧
       (expansion_round order L W).1 = Some W' ∧
       (are_all_words_only LANGUAGE_UNICODE_ALPHABET order W' (lower language_code)).1
       = Returns false.

(** In the order [l] in which the candidates are visited, the first one
    that is not word-only has no character of the alphabet [L]. *)
Definition blank_met_first (LANGUAGE_UNICODE_ALPHABET : str → option (ascii → bool))
    (L : ascii → bool) (language_code : str) (l : list str) : Prop :=
  ∃ before b after, l = before ++ b :: after ∧
    (∀ x, x ∈ before →
       (is_words_only LANGUAGE_UNICODE_ALPHABET x language_code).1 = Returns true) ∧
    (∀ a, a ∈ b → L a = false).

(** No two spaces in a row. *)
Fixpoint double_space_free (s : str) : bool :=
  match s with
  | [] => true
  | c1 :: s1 =>
      match s1 with
      | c2 :: _ => negb (Ascii.eqb c1 " " && Ascii.eqb c2 " ") && double_space_free s1
      | [] => true
      end
  end.

(** What the specification asks of the alternatives of a span, said
    without the string methods the code calls. *)

(** [cleaned] is [span] with every one of the four delimiters deleted and
    every other character kept, in order. *)
Inductive delimiters_removed : str → str → Prop :=
| delimiters_removed_nil : delimiters_removed [] []
| delimiters_removed_drop c span cleaned :
    is_bracket c = true → delimiters_removed span cleaned →
    delimiters_removed (c :: span) cleaned
| delimiters_removed_keep c span cleaned :
    is_bracket c = false → delimiters_removed span cleaned →
    delimiters_removed (c :: span) (c :: cleaned).

(** [pieces] are the stretches of [s] between its separators: there is at
    least one, put together again with a separator between every two of
    them they give [s], and none of them holds a separator. *)
Definition pieces_between (sep : ascii) (s : str) (pieces : list str) : Prop :=
  pieces ≠ [] ∧ join sep pieces = s ∧ ∀ piece, piece ∈ pieces → sep ∉ piece.

(** [t] is [s] without the white space at its two ends: what is cut off on
    either side is white space, and [t] neither starts nor ends with
    white space. *)
Definition trimmed (s t : str) : Prop :=
  (∃ l r, s = l ++ t ++ r ∧ (∀ c, c ∈ l → is_space c = true) ∧
          (∀ c, c ∈ r → is_space c = true)) ∧
  (∀ c, head t = Some c → is_space c = false) ∧
  (∀ c, last t = Some c → is_space c = false).

(** An alternative of a span: the delimiters removed, the rest cut at the
    pipes, one of the pieces trimmed. *)
Definition alternative_of (span alternative : str) : Prop :=
  ∃ cleaned pieces piece,
    delimiters_removed span cleaned ∧ pieces_between "|" cleaned pieces ∧
    piece ∈ pieces ∧ trimmed piece alternative.

(** The number of grammar punctuation characters of a string. *)
Definition punct_count (s : str) : nat := length (filter (λ a, is_punct a = true) s).

(** A string written with nothing but characters of the alphabet and
    grammar punctuation. *)
Definition in_notation (L : ascii → bool) (s : str) : Prop :=
  Forall (λ a, L a = true ∨ is_punct a = true) s.

(** The largest punctuation count of a working set. *)
Definition max_punct_count (W : gset str) : nat :=
  max_list (punct_count <$> elements W).

#[global] Instance in_notation_dec L s : Decision (in_notation L s).
Proof. unfold in_notation. apply _. Defined.

(** The answer of [validate_loop], which only depends on the kinds of the
    openers on the stack. *)
Fixpoint balanced (s : str) (openers : list ascii) : bool :=
  match s with
  | [] => match openers with [] => true | _ => false end
  | char :: s' =>
      if is_opening char then balanced s' (char :: openers)
      else if Ascii.eqb char ")" then
        match openers with
        | [] => false
        | top :: below =>
            if Ascii.eqb top "(" then balanced s' below
            else if Ascii.eqb top "[" then false
            else balanced s' openers
        end
      else if Ascii.eqb char "]" then
        match openers with
        | [] => false
        | top :: below =>
            if Ascii.eqb top "[" then balanced s' below
            else if Ascii.eqb top "(" then false
            else balanced s' openers
        end
      else balanced s' openers
  end.

(** An alphabet class that holds none of the four brackets. *)
Definition alphabet_without_brackets (L : ascii → bool) : Prop :=
  ∀ a, is_bracket a = true → L a = false.

(** What a warning of the validator says about the string it is about:
    the index it names holds the character it names. *)
Definition record_points_at (bnf : str) (record : log_record) : Prop :=
  match record with
  | ClosingAsOpener b closer index =>
      b = bnf ∧ bnf !! index = Some closer ∧ is_closing closer = true
  | Mismatch b index expected_for received =>
      b = bnf ∧ bnf !! index = Some received ∧ is_closing received = true ∧
      is_opening expected_for = true ∧ received ≠ closer_of expected_for ∧
      ∃ opened, opened < index ∧ bnf !! opened = Some expected_for
  | MissingClosing closer opener index =>
      bnf !! index = Some opener ∧ is_opening opener = true ∧ closer = closer_of opener
  | LanguageNotSupported | NoBnfProvided => False
  end.

#[global] Instance letter_or_pipe_dec L a : Decision (letter_or_pipe L a).
Proof. unfold letter_or_pipe. apply _. Defined.

(** The span the second or the third loop works on: it is cut out of the
    candidate, it is the two delimiters around characters of the alphabet
    and pipes, no bracket among them, and no span of that form starts
    further to the left. *)
Definition leftmost_atomic_span (L : ascii → bool) (o cl : ascii) (c span : str) : Prop :=
  ∃ p mid q,
    c = p ++ span ++ q ∧ span = o :: mid ++ [cl] ∧
    Forall (letter_or_pipe L) mid ∧ (∀ a, a ∈ mid → is_bracket a = false) ∧
    ∀ p' mid' q', c = p' ++ (o :: mid' ++ [cl]) ++ q' → Forall (letter_or_pipe L) mid' →
                  length p ≤ length p'.

(** * The validator *)

Section validator.

Lemma is_opening_cases c : is_opening c = true → c = "(" ∨ c = "[".
Proof.
  unfold is_opening. intros H. apply orb_true_iff in H as [H|H];
    apply Ascii.eqb_eq in H; auto.
Qed.

Lemma is_opening_not_closing c : is_opening c = true → is_closing c = false.
Proof. intros [->| ->]%is_opening_cases; reflexivity. Qed.

Lemma well_nested_app s1 s2 : well_nested s1 → well_nested s2 → well_nested (s1 ++ s2).
Proof.
  induction 1 as [|c s Hc Hs IH|o t1 t2 Ho Ht1 IH1 Ht2 IH2]; intros H2; simpl.
  - exact H2.
  - apply wn_other; auto.
  - rewrite <- app_assoc. simpl. apply wn_pair; auto.
Qed.

(** A well-nested stretch leaves the stack as it found it. *)
Lemma validate_loop_well_nested bnf s :
  well_nested s → ∀ rest i stk,
  validate_loop bnf (s ++ rest) i stk = validate_loop bnf rest (i + length s) stk.
Proof.
  induction 1 as [|c s Hc Hs IH|o t1 t2 Ho Ht1 IH1 Ht2 IH2]; intros rest i stk.
  - simpl. f_equal. lia.
  - simpl. unfold is_bracket, is_opening, is_closing in Hc.
    apply orb_false_iff in Hc as [Ho Hcl].
    unfold is_opening. rewrite Ho.
    apply orb_false_iff in Hcl as [-> ->].
    rewrite IH. f_equal. lia.
  - cbn [app validate_loop]. rewrite Ho.
    rewrite <- app_assoc. rewrite IH1. cbn [app validate_loop].
    replace (i + length (o :: t1 ++ closer_of o :: t2))
      with (S (S (i + length t1)) + length t2)
      by (simpl; rewrite length_app; simpl; lia).
    rewrite <- IH2.
    apply is_opening_cases in Ho as [-> | ->]; reflexivity.
Qed.

Lemma closes_other openers c s :
  is_bracket c = false → closes openers s → closes openers (c :: s).
Proof.
  destruct openers as [|o below]; simpl.
  - apply wn_other.
  - intros Hc (s1 & s2 & -> & H1 & H2). exists (c :: s1), s2.
    split; [reflexivity|]. split; [by apply wn_other|done].
Qed.

Lemma closes_open openers o s :
  is_opening o = true → closes (o :: openers) s → closes openers (o :: s).
Proof.
  intros Ho (s1 & s2 & -> & H1 & H2). destruct openers as [|o' below]; simpl in *.
  - by apply wn_pair.
  - destruct H2 as (t1 & t2 & -> & Ht1 & Ht2).
    exists (o :: s1 ++ closer_of o :: t1), t2. split.
    + simpl. by rewrite <- app_assoc.
    + split; [by apply wn_pair|done].
Qed.

Lemma closes_close openers o s :
  closes openers s → closes (o :: openers) (closer_of o :: s).
Proof. intros H. exists [], s. split; [done|]. split; [constructor|done]. Qed.

Lemma validate_loop_closes bnf s : ∀ i stk,
  Forall (λ e, is_opening e.1 = true) stk →
  (validate_loop bnf s i stk).1 = true → closes (map fst stk) s.
Proof.
  induction s as [|c s IH]; intros i stk Hstk H.
  - destruct stk; [constructor|discriminate].
  - cbn [validate_loop] in H. destruct (is_opening c) eqn:Ho.
    { apply closes_open; [done|]. apply (IH (S i) ((c, i) :: stk)); [|done].
      by constructor. }
    destruct (Ascii.eqb c ")") eqn:Hc1.
    { apply Ascii.eqb_eq in Hc1 as ->.
      destruct stk as [|[top j] below]; [discriminate|].
      apply Forall_cons in Hstk as [Htop Hbelow]. simpl in Htop.
      apply is_opening_cases in Htop as [-> | ->]; cbn in H; [|discriminate].
      apply (closes_close _ "("). eauto. }
    destruct (Ascii.eqb c "]") eqn:Hc2.
    { apply Ascii.eqb_eq in Hc2 as ->.
      destruct stk as [|[top j] below]; [discriminate|].
      apply Forall_cons in Hstk as [Htop Hbelow]. simpl in Htop.
      apply is_opening_cases in Htop as [-> | ->]; cbn in H; [discriminate|].
      apply (closes_close _ "["). eauto. }
    apply closes_other; [|by eauto].
    unfold is_bracket, is_closing. by rewrite Ho, Hc1, Hc2.
Qed.

(** Every [False] comes with a warning, every [True] with none. *)
Lemma validate_loop_log bnf s : ∀ i stk,
  Forall (λ e, is_opening e.1 = true) stk →
  ((validate_loop bnf s i stk).1 = true → (validate_loop bnf s i stk).2 = []) ∧
  ((validate_loop bnf s i stk).1 = false → (validate_loop bnf s i stk).2 ≠ []).
Proof.
  induction s as [|c s IH]; intros i stk Hstk.
  - destruct stk as [|[top j] below]; [done|]. split; [done|]. intros _. simpl.
    apply Forall_cons in Hstk as [Htop _]. simpl in Htop.
    rewrite map_app, concat_app. simpl.
    intros Hnil. apply app_eq_nil in Hnil as [_ Hnil].
    apply is_opening_cases in Htop as [-> | ->]; discriminate.
  - cbn [validate_loop]. destruct (is_opening c) eqn:Ho.
    { apply IH. by constructor. }
    destruct (Ascii.eqb c ")") eqn:Hc1.
    { destruct stk as [|[top j] below]; [done|].
      apply Forall_cons in Hstk as [Htop Hbelow]. simpl in Htop.
      apply is_opening_cases in Htop as [-> | ->]; cbn; [by apply IH|done]. }
    destruct (Ascii.eqb c "]") eqn:Hc2.
    { destruct stk as [|[top j] below]; [done|].
      apply Forall_cons in Hstk as [Htop Hbelow]. simpl in Htop.
      apply is_opening_cases in Htop as [-> | ->]; cbn; [done|by apply IH]. }
    by apply IH.
Qed.

Lemma validate_bnf_groups_well_nested bnf :
  (validate_bnf_groups bnf).1 = true ↔ well_nested bnf.
Proof.
  unfold validate_bnf_groups. split.
  - intros H. by apply (validate_loop_closes bnf bnf 0 []) in H.
  - intros H. pose proof (validate_loop_well_nested bnf bnf H [] 0 []) as E.
    rewrite app_nil_r in E. by rewrite E.
Qed.

Lemma validate_bnf_groups_log bnf :
  ((validate_bnf_groups bnf).1 = true → (validate_bnf_groups bnf).2 = []) ∧
  ((validate_bnf_groups bnf).1 = false → (validate_bnf_groups bnf).2 ≠ []).
Proof. by apply validate_loop_log. Qed.

End validator.

(** C2. [validate_bnf_groups] answers [True] exactly on the strings in
    which every parenthesis and every square bracket is matched by one of
    its own kind and the pairs do not cross; whenever it answers [False],
    be it for a closer of the wrong kind, a closer with nothing open or an
    opener left unclosed, at least one warning has been logged, and with
    [True] none. *)
Theorem validate_bnf_groups_correct (bnf : str) :
  ((validate_bnf_groups bnf).1 = true ↔ well_nested bnf) ∧
  ((validate_bnf_groups bnf).1 = false → (validate_bnf_groups bnf).2 ≠ []) ∧
  ((validate_bnf_groups bnf).1 = true → (validate_bnf_groups bnf).2 = []).
Proof.
  split; [apply validate_bnf_groups_well_nested|].
  destruct (validate_bnf_groups_log bnf) as [Htrue Hfalse]. by split.
Qed.

Example validate_bnf_groups_mismatch :
  validate_bnf_groups $"(a|b]" = (false, [Mismatch $"(a|b]" 4 "(" "]"]).
Proof. reflexivity. Qed.

Example validate_bnf_groups_closer_first :
  validate_bnf_groups $"a)" = (false, [ClosingAsOpener $"a)" ")" 1]).
Proof. reflexivity. Qed.

Example validate_bnf_groups_unclosed :
  validate_bnf_groups $"(a[b" = (false, [MissingClosing ")" "(" 0; MissingClosing "]" "[" 2]).
Proof. reflexivity. Qed.

Example validate_bnf_groups_siblings :
  validate_bnf_groups $"(a) [b (c)] d" = (true, []).
Proof. reflexivity. Qed.

(** * The order of the output *)

Section ordering.

Lemma nat_of_ascii_inj x y : nat_of_ascii x = nat_of_ascii y → x = y.
Proof.
  intros H. rewrite <- (ascii_nat_embedding x), <- (ascii_nat_embedding y). by rewrite H.
Qed.

#[global] Instance str_le_refl : Reflexive str_le.
Proof.
  intros a. unfold str_le. induction a as [|x a IH]; simpl; [done|].
  by rewrite Nat.ltb_irrefl.
Qed.

#[global] Instance str_le_trans : Transitive str_le.
Proof.
  unfold str_le. intros a. induction a as [|x a IH]; intros b c Hab Hbc; [done|].
  destruct b as [|y b]; [done|]. destruct c as [|z c]; [done|]. simpl in *.
  destruct (Nat.ltb_spec (nat_of_ascii x) (nat_of_ascii y));
    destruct (Nat.ltb_spec (nat_of_ascii y) (nat_of_ascii z));
    destruct (Nat.ltb_spec (nat_of_ascii x) (nat_of_ascii z)); try done; try lia.
  - destruct (Nat.ltb_spec (nat_of_ascii z) (nat_of_ascii y)); [done|lia].
  - destruct (Nat.ltb_spec (nat_of_ascii y) (nat_of_ascii x)); [done|lia].
  - destruct (Nat.ltb_spec (nat_of_ascii y) (nat_of_ascii x)); [done|].
    destruct (Nat.ltb_spec (nat_of_ascii z) (nat_of_ascii y)); [done|].
    destruct (Nat.ltb_spec (nat_of_ascii z) (nat_of_ascii x)); [lia|]. eauto.
Qed.

#[global] Instance str_le_antisym : AntiSymm (=) str_le.
Proof.
  unfold str_le. intros a. induction a as [|x a IH]; intros b Hab Hba.
  - by destruct b.
  - destruct b as [|y b]; [done|]. simpl in *.
    destruct (Nat.ltb_spec (nat_of_ascii x) (nat_of_ascii y));
      destruct (Nat.ltb_spec (nat_of_ascii y) (nat_of_ascii x)); try done; try lia.
    assert (x = y) as -> by (apply nat_of_ascii_inj; lia).
    f_equal. by apply IH.
Qed.

#[global] Instance str_le_total : Total str_le.
Proof.
  unfold str_le. intros a. induction a as [|x a IH]; intros b; [by left|].
  destruct b as [|y b]; [by right|]. simpl.
  destruct (Nat.ltb_spec (nat_of_ascii x) (nat_of_ascii y));
    destruct (Nat.ltb_spec (nat_of_ascii y) (nat_of_ascii x)); auto.
Qed.

Lemma sorted_Sorted l : Sorted str_le (sorted l).
Proof. apply (Sorted_merge_sort str_le). Qed.

Lemma sorted_Permutation l : sorted l ≡ₚ l.
Proof. apply (merge_sort_Permutation str_le). Qed.

(** [sorted] does not depend on the order in which it is handed the
    elements. *)
Lemma sorted_order l1 l2 : l1 ≡ₚ l2 → sorted l1 = sorted l2.
Proof.
  intros H. apply (Sorted_unique str_le); try apply sorted_Sorted.
  by rewrite !sorted_Permutation.
Qed.

End ordering.

(** * The matcher and the strings a pattern denotes *)

Section matcher.

Lemma repeat_greedy_sound body r k :
  (∀ s k' e, body s k' = Some e →
     ∃ s1 s2, s = s1 ++ s2 ∧ matches r s1 ∧ k' s2 = Some e) →
  ∀ fuel s e, repeat_greedy body k fuel s = Some e →
  ∃ s1 s2, s = s1 ++ s2 ∧ matches (Star r) s1 ∧ k s2 = Some e.
Proof.
  intros Hbody. induction fuel as [|fuel IH]; intros s e H; simpl in H.
  - exists [], s. split; [done|]. split; [constructor|done].
  - destruct (body s _) as [rest|] eqn:Hb.
    + injection H as ->. apply Hbody in Hb as (s1 & s2 & -> & Hm & Hk).
      destruct (decide _); [|done].
      apply IH in Hk as (t1 & t2 & -> & Hm' & Hk).
      exists (s1 ++ t1), t2. rewrite <- app_assoc. split; [done|].
      split; [by constructor|done].
    + exists [], s. split; [done|]. split; [constructor|done].
Qed.

(** Whatever the matcher finds is a string of the pattern followed by a
    rest the continuation accepted. *)
Lemma backtrack_sound r : ∀ s k e,
  backtrack r s k = Some e → ∃ s1 s2, s = s1 ++ s2 ∧ matches r s1 ∧ k s2 = Some e.
Proof.
  induction r as [c|p|r1 IH1 r2 IH2|r1 IH1 r2 IH2|r1 IH1]; intros s k e H; simpl in H.
  - destruct s as [|x s]; [done|]. destruct (Ascii.eqb x c) eqn:E; [|done].
    apply Ascii.eqb_eq in E as ->. exists [c], s. split; [done|]. split; [constructor|done].
  - destruct s as [|x s]; [done|]. destruct (p x) eqn:E; [|done].
    exists [x], s. split; [done|]. split; [by constructor|done].
  - apply IH1 in H as (s1 & s2 & -> & Hm1 & H).
    apply IH2 in H as (t1 & t2 & -> & Hm2 & H).
    exists (s1 ++ t1), t2. rewrite <- app_assoc. split; [done|].
    split; [by constructor|done].
  - destruct (backtrack r1 s k) as [rest|] eqn:E.
    + injection H as ->. apply IH1 in E as (s1 & s2 & -> & Hm & Hk).
      exists s1, s2. split; [done|]. split; [by apply matches_alt_l|done].
    + apply IH2 in H as (s1 & s2 & -> & Hm & Hk).
      exists s1, s2. split; [done|]. split; [by apply matches_alt_r|done].
  - by apply (repeat_greedy_sound _ r1 k IH1) in H.
Qed.

(** A string of a repetition is a sequence of non-empty strings of its
    body. *)
Lemma matches_star_pieces r s :
  matches (Star r) s →
  ∃ pieces, s = concat pieces ∧ Forall (λ piece, matches r piece ∧ piece ≠ []) pieces.
Proof.
  intros H. remember (Star r) as r' eqn:Hr.
  induction H as [| | | | | |r0 s1 s2 H1 _ H2 IH]; try discriminate.
  - by exists [].
  - injection Hr as ->. destruct (IH eq_refl) as (pieces & -> & Hp).
    destruct s1 as [|x s1]; [by exists pieces|].
    exists ((x :: s1) :: pieces). split; [done|]. by constructor.
Qed.

Lemma repeat_greedy_complete body r k :
  (∀ s1 s2 k' e, matches r s1 → k' s2 = Some e → is_Some (body (s1 ++ s2) k')) →
  ∀ pieces s2 e fuel,
  Forall (λ piece, matches r piece ∧ piece ≠ []) pieces →
  k s2 = Some e → length (concat pieces ++ s2) ≤ fuel →
  is_Some (repeat_greedy body k fuel (concat pieces ++ s2)).
Proof.
  intros Hbody pieces s2 e. induction pieces as [|piece pieces IH]; intros fuel Hp Hk Hlen.
  - simpl. destruct fuel as [|fuel]; simpl; [by eexists|].
    destruct (body s2 _); by eexists.
  - apply Forall_cons in Hp as [[Hm Hne] Hp].
    destruct fuel as [|fuel].
    { simpl in Hlen. rewrite !length_app in Hlen. destruct piece; [done|simpl in Hlen; lia]. }
    cbn [repeat_greedy concat]. rewrite <- app_assoc.
    destruct (IH fuel Hp Hk) as [e' He'].
    { simpl in Hlen. rewrite !length_app in *. destruct piece; [done|simpl in Hlen; lia]. }
    match goal with |- is_Some (match body _ ?k' with _ => _ end) =>
      destruct (Hbody piece (concat pieces ++ s2) k' e' Hm) as [e'' ->] end.
    + rewrite decide_True; [done|]. rewrite (length_app piece).
      destruct piece; [done|simpl; lia].
    + by eexists.
Qed.

(** Whenever a string of the pattern is followed by a rest the
    continuation accepts, the matcher finds a match. *)
Lemma backtrack_complete r : ∀ s1 s2 k e,
  matches r s1 → k s2 = Some e → is_Some (backtrack r (s1 ++ s2) k).
Proof.
  induction r as [c|p|r1 IH1 r2 IH2|r1 IH1 r2 IH2|r1 IH1]; intros s1 s2 k e Hm Hk.
  - inversion Hm; subst. simpl. rewrite Ascii.eqb_refl. by eexists.
  - inversion Hm as [|p' c Hc| | | | |]; subst. simpl. rewrite Hc. by eexists.
  - inversion Hm as [| |? ? t1 t2 Hm1 Hm2| | | |]; subst. simpl. rewrite <- app_assoc.
    destruct (IH2 t2 s2 k e Hm2 Hk) as [e' He']. by eapply IH1.
  - simpl. inversion Hm; subst.
    + destruct (IH1 s1 s2 k e) as [e' ->]; [done..|]. by eexists.
    + destruct (backtrack r1 (s1 ++ s2) k); [by eexists|]. by eapply IH2.
  - simpl. apply matches_star_pieces in Hm as (pieces & -> & Hp).
    by eapply (repeat_greedy_complete _ r1 k IH1).
Qed.

Lemma search_unfold r s :
  search r s =
  match backtrack r s Some with
  | Some rest => Some (take (length s - length rest) s)
  | None => match s with [] => None | _ :: s' => search r s' end
  end.
Proof. by destruct s. Qed.

Lemma search_sound r : ∀ s m,
  search r s = Some m → ∃ p q, s = p ++ m ++ q ∧ matches r m.
Proof.
  induction s as [|x s IH]; intros m H; rewrite search_unfold in H;
    destruct (backtrack r _ Some) as [rest|] eqn:E; try done.
  - injection H as <-.
    apply backtrack_sound in E as (s1 & s2 & Hs & Hm & [= ->]).
    symmetry in Hs. apply app_eq_nil in Hs as [-> ->]. by exists [], [].
  - injection H as <-. apply backtrack_sound in E as (s1 & s2 & Hs & Hm & [= ->]).
    exists [], rest. rewrite Hs.
    rewrite (take_app_length' s1 rest); [done|].
    apply (f_equal length) in Hs. rewrite length_app in Hs. simpl in Hs. lia.
  - apply IH in H as (p & q & -> & Hm). by exists (x :: p), q.
Qed.

Lemma search_complete r : ∀ p m q, matches r m → is_Some (search r (p ++ m ++ q)).
Proof.
  induction p as [|x p IH]; intros m q Hm.
  - destruct (backtrack_complete r m q Some q Hm eq_refl) as [e He].
    rewrite search_unfold. simpl. rewrite He. by eexists.
  - rewrite search_unfold. destruct (backtrack r _ Some); [by eexists|]. by apply IH.
Qed.

Lemma fullmatch_sound r s m : fullmatch r s = Some m → m = s ∧ matches r s.
Proof.
  unfold fullmatch. destruct (backtrack r s _) as [rest|] eqn:E; [|done].
  intros [= <-]. split; [done|].
  apply backtrack_sound in E as (s1 & s2 & -> & Hm & Hk).
  destruct s2; [|done]. by rewrite app_nil_r.
Qed.

Lemma fullmatch_complete r s : matches r s → fullmatch r s = Some s.
Proof.
  intros Hm. unfold fullmatch.
  destruct (backtrack_complete r s [] (λ rest, match rest with [] => Some [] | _ => None end) []
              Hm eq_refl) as [e He].
  rewrite app_nil_r in He. by rewrite He.
Qed.

End matcher.

(** * Facts about the string operations *)

Section strings.

Lemma starts_with_spec old : ∀ s, starts_with old s = true ↔ ∃ t, s = old ++ t.
Proof.
  induction old as [|a old IH]; intros s; simpl.
  - split; [by exists s|done].
  - destruct s as [|b s].
    + split; [done|]. by intros (t & ?).
    + rewrite andb_true_iff, Ascii.eqb_eq, IH. split.
      * intros [-> (t & ->)]. by exists t.
      * intros (t & [= -> ->]). split; [done|]. by exists t.
Qed.

(** [replace_once] either rewrites the leftmost occurrence of [old], or
    there is none and the string is returned as it is. *)
Lemma replace_once_spec old new : ∀ s,
  (∃ p q, s = p ++ old ++ q ∧ replace_once s old new = p ++ new ++ q ∧
          ∀ p' q', s = p' ++ old ++ q' → length p ≤ length p')
  ∨ (replace_once s old new = s ∧ ∀ p q, s ≠ p ++ old ++ q).
Proof.
  assert (Hunfold : ∀ s, replace_once s old new =
            if starts_with old s then new ++ drop (length old) s
            else match s with [] => [] | c :: s' => c :: replace_once s' old new end)
    by (by intros []).
  induction s as [|c s IH]; rewrite Hunfold.
  - destruct (starts_with old []) eqn:E.
    + left. apply starts_with_spec in E as (t & Ht). exists [], t. simpl.
      split; [done|]. split; [|intros; simpl; lia].
      by rewrite Ht, drop_app_length.
    + right. split; [done|]. intros p q Hs.
      assert (starts_with old [] = true); [|congruence].
      apply starts_with_spec. exists q.
      symmetry in Hs. apply app_eq_nil in Hs as [-> Hs]. done.
  - destruct (starts_with old (c :: s)) eqn:E.
    + left. apply starts_with_spec in E as (t & Ht). exists [], t. simpl.
      split; [done|]. split; [|intros; simpl; lia].
      by rewrite Ht, drop_app_length.
    + assert (Hhead : ∀ q, c :: s ≠ old ++ q).
      { intros q Hs. assert (starts_with old (c :: s) = true); [|congruence].
        apply starts_with_spec. by exists q. }
      destruct IH as [(p & q & -> & -> & Hmin)|[-> Hnone]].
      * left. exists (c :: p), q. split; [done|]. split; [done|].
        intros [|c' p'] q' Hs; [by apply Hhead in Hs|].
        injection Hs as -> Hs. simpl. apply Hmin in Hs. lia.
      * right. split; [done|]. intros [|c' p] q Hs; [by apply Hhead in Hs|].
        injection Hs as -> Hs. by apply Hnone in Hs.
Qed.

(** Two ways of cutting a string at an occurrence of [old] that start at
    the same place are the same. *)
Lemma occurrence_unique (old p q p' q' : str) :
  p ++ old ++ q = p' ++ old ++ q' → length p = length p' → p = p' ∧ q = q'.
Proof.
  intros H Hlen. apply app_inj_1 in H as [-> H]; [|done].
  apply app_inv_head in H. done.
Qed.

Lemma replace_once_first s old new p q :
  s = p ++ old ++ q →
  (∀ p' q', s = p' ++ old ++ q' → length p ≤ length p') →
  replace_once s old new = p ++ new ++ q.
Proof.
  intros Hs Hmin. destruct (replace_once_spec old new s)
    as [(p0 & q0 & Hs0 & -> & Hmin0)|[_ Hnone]]; [|by apply Hnone in Hs].
  destruct (occurrence_unique old p0 q0 p q) as [-> ->]; [congruence| |done].
  apply Hmin in Hs0. apply Hmin0 in Hs. lia.
Qed.

(** The pieces of a split, joined by the separator, give the string back,
    and no piece holds the separator. *)
Lemma split_nonempty sep s : split sep s ≠ [].
Proof.
  destruct s as [|c s]; simpl; [done|].
  destruct (Ascii.eqb c sep); [done|]. by destruct (split sep s).
Qed.

Lemma split_join sep : ∀ s, join sep (split sep s) = s.
Proof.
  induction s as [|c s IH]; [done|]. simpl.
  pose proof (split_nonempty sep s) as Hne.
  destruct (Ascii.eqb c sep) eqn:E.
  - apply Ascii.eqb_eq in E as ->. simpl.
    destruct (split sep s) as [|piece pieces]; [done|]. by rewrite IH.
  - destruct (split sep s) as [|piece pieces]; [done|].
    destruct pieces; simpl in *; by rewrite <- IH.
Qed.

Lemma split_no_sep sep : ∀ s piece, piece ∈ split sep s → sep ∉ piece.
Proof.
  induction s as [|c s IH]; intros piece Hin; simpl in Hin.
  - apply list_elem_of_singleton in Hin as ->. apply not_elem_of_nil.
  - destruct (Ascii.eqb c sep) eqn:E.
    + apply elem_of_cons in Hin as [->|Hin]; [apply not_elem_of_nil|by apply IH].
    + pose proof (split_nonempty sep s) as Hne.
      destruct (split sep s) as [|piece0 pieces]; [done|].
      apply elem_of_cons in Hin as [->|Hin].
      * apply not_elem_of_cons. split.
        -- intros ->. by rewrite Ascii.eqb_refl in E.
        -- apply IH. by left.
      * apply IH. by right.
Qed.

Lemma split_subseteq sep : ∀ s piece, piece ∈ split sep s → piece ⊆ s.
Proof.
  induction s as [|c s IH]; intros piece Hin; simpl in Hin.
  - by apply list_elem_of_singleton in Hin as ->.
  - destruct (Ascii.eqb c sep) eqn:E.
    + apply elem_of_cons in Hin as [->|Hin]; [apply list_subseteq_nil|].
      apply list_subseteq_cons. by apply IH.
    + pose proof (split_nonempty sep s) as Hne.
      destruct (split sep s) as [|piece0 pieces]; [done|].
      apply elem_of_cons in Hin as [->|Hin].
      * intros a [->|Ha]%elem_of_cons; [by left|]. right. revert Ha. apply IH. by left.
      * apply list_subseteq_cons, IH. by right.
Qed.

Lemma split_without_sep sep s : sep ∉ s → split sep s = [s].
Proof.
  induction s as [|c s IH]; intros Hs; [done|]. simpl.
  apply not_elem_of_cons in Hs as [Hc Hs].
  destruct (Ascii.eqb c sep) eqn:E; [by apply Ascii.eqb_eq in E as ->|].
  by rewrite IH.
Qed.

Lemma lstrip_suffix s : ∃ p, s = p ++ lstrip s.
Proof.
  induction s as [|c s [p IH]]; simpl; [by exists []|].
  destruct (is_space c); [|by exists []]. exists (c :: p). simpl. by f_equal.
Qed.

Lemma strip_infix s : ∃ p q, s = p ++ strip s ++ q.
Proof.
  unfold strip, rstrip. destruct (lstrip_suffix s) as [p Hp].
  destruct (lstrip_suffix (rev (lstrip s))) as [q Hq].
  exists p, (rev q). rewrite Hp at 1. f_equal.
  rewrite <- rev_app_distr, <- Hq. by rewrite rev_involutive.
Qed.

Lemma strip_subseteq s : strip s ⊆ s.
Proof.
  destruct (strip_infix s) as (p & q & Hs). rewrite Hs at 2.
  intros a Ha. rewrite !elem_of_app. auto.
Qed.

Lemma lstrip_head s c : head (lstrip s) = Some c → is_space c = false.
Proof.
  induction s as [|a s IH]; simpl; [done|].
  destruct (is_space a) eqn:E; [done|]. simpl. by intros [= <-].
Qed.

Lemma last_rev (l : str) : last (rev l) = head l.
Proof. destruct l as [|a l]; [done|]. simpl. apply last_snoc. Qed.

Lemma rstrip_last s c : last (rstrip s) = Some c → is_space c = false.
Proof. unfold rstrip. rewrite last_rev. apply lstrip_head. Qed.

Lemma rstrip_prefix s : ∃ q, s = rstrip s ++ q.
Proof.
  unfold rstrip. destruct (lstrip_suffix (rev s)) as [p Hp]. exists (rev p).
  rewrite <- rev_app_distr, <- Hp. by rewrite rev_involutive.
Qed.

Lemma strip_head s c : head (strip s) = Some c → is_space c = false.
Proof.
  unfold strip. destruct (rstrip_prefix (lstrip s)) as [q Hq]. intros Hhead.
  apply (lstrip_head s). rewrite Hq.
  destruct (rstrip (lstrip s)); [done|]. done.
Qed.

Lemma strip_last s c : last (strip s) = Some c → is_space c = false.
Proof. apply rstrip_last. Qed.

Lemma length_split sep : ∀ s,
  length (split sep s) = S (length (filter (λ a, a = sep) s)).
Proof.
  induction s as [|c s IH]; [done|]. simpl. rewrite filter_cons.
  destruct (Ascii.eqb_spec c sep) as [->|Hne].
  - rewrite decide_True by done. simpl. by rewrite IH.
  - rewrite decide_False by done. rewrite <- IH.
    pose proof (split_nonempty sep s). by destruct (split sep s).
Qed.

(** *** [split] and [strip] do what is asked of them, and nothing else does *)

Lemma split_app_sep sep piece rest :
  sep ∉ piece → split sep (piece ++ sep :: rest) = piece :: split sep rest.
Proof.
  induction piece as [|c piece IH]; intros Hsep; simpl.
  - by rewrite Ascii.eqb_refl.
  - apply not_elem_of_cons in Hsep as [Hne Hsep].
    destruct (Ascii.eqb_spec c sep) as [->|_]; [done|].
    by rewrite IH.
Qed.

Lemma split_of_join sep pieces :
  pieces ≠ [] → (∀ piece, piece ∈ pieces → sep ∉ piece) →
  split sep (join sep pieces) = pieces.
Proof.
  induction pieces as [|piece pieces IH]; intros Hne Hsep; [done|].
  destruct pieces as [|piece' pieces].
  - simpl. apply split_without_sep, Hsep. by left.
  - change (join sep (piece :: piece' :: pieces))
      with (piece ++ sep :: join sep (piece' :: pieces)).
    rewrite split_app_sep by (apply Hsep; by left).
    rewrite IH; [done..|]. intros p Hp. apply Hsep. by right.
Qed.

Lemma pieces_between_split sep s pieces :
  pieces_between sep s pieces ↔ pieces = split sep s.
Proof.
  split.
  - intros (Hne & <- & Hsep). symmetry. by apply split_of_join.
  - intros ->. split; [apply split_nonempty|]. split; [apply split_join|].
    apply split_no_sep.
Qed.

Lemma lstrip_spaces s : ∃ l, s = l ++ lstrip s ∧ ∀ c, c ∈ l → is_space c = true.
Proof.
  induction s as [|c s (l & IH & Hl)];
    [exists []; split; [done|]; by intros c ?%elem_of_nil|]. simpl.
  destruct (is_space c) eqn:Hc.
  - exists (c :: l). split; [by rewrite <- app_comm_cons, <- IH|].
    intros c' [->|?]%elem_of_cons; auto.
  - exists []. split; [done|]. by intros c' ?%elem_of_nil.
Qed.

Lemma rstrip_spaces s : ∃ r, s = rstrip s ++ r ∧ ∀ c, c ∈ r → is_space c = true.
Proof.
  unfold rstrip. destruct (lstrip_spaces (rev s)) as (l & Hs & Hl).
  exists (rev l). split.
  - rewrite <- rev_app_distr, <- Hs. by rewrite rev_involutive.
  - intros c Hc. apply Hl. rewrite list_elem_of_In in Hc |- *. by apply in_rev.
Qed.

Lemma strip_trimmed s : trimmed s (strip s).
Proof.
  split; [|split; [apply strip_head|apply strip_last]].
  destruct (lstrip_spaces s) as (l & Hs & Hl).
  destruct (rstrip_spaces (lstrip s)) as (r & Hs' & Hr).
  exists l, r. split; [|done]. unfold strip. by rewrite <- Hs', <- Hs.
Qed.

Lemma lstrip_all_spaces l s : (∀ c, c ∈ l → is_space c = true) → lstrip (l ++ s) = lstrip s.
Proof.
  induction l as [|c l IH]; intros Hl; [done|]. simpl.
  rewrite Hl by (by left). apply IH. intros c' Hc'. apply Hl. by right.
Qed.

Lemma lstrip_no_space s :
  (∀ c, head s = Some c → is_space c = false) → lstrip s = s.
Proof. destruct s as [|c s]; [done|]. intros H. simpl. by rewrite H. Qed.

Lemma trimmed_strip s t : trimmed s t → t = strip s.
Proof.
  intros ((l & r & -> & Hl & Hr) & Hhead & Hlast). unfold strip.
  rewrite lstrip_all_spaces by done.
  destruct t as [|c t].
  - simpl. destruct (lstrip_spaces r) as (l' & Hr' & _).
    assert (lstrip r = []) as ->; [|done].
    destruct (lstrip r) as [|c' r'] eqn:E; [done|].
    pose proof (lstrip_head r c') as Hc'. rewrite E in Hc'. specialize (Hc' eq_refl).
    rewrite Hr in Hc'; [done|]. rewrite Hr'. apply elem_of_app. right. by left.
  - rewrite lstrip_no_space by (intros c' [= <-]; by apply Hhead).
    unfold rstrip. rewrite rev_app_distr.
    rewrite lstrip_all_spaces
      by (intros c' Hc'; apply Hr; rewrite list_elem_of_In in Hc' |- *; by apply in_rev).
    rewrite lstrip_no_space; [by rewrite rev_involutive|].
    intros c'. rewrite <- last_rev, rev_involutive. apply Hlast.
Qed.

End strings.

(** * The strings of the four patterns *)

Section pattern_languages.

Variable L : ascii → bool.

Lemma matches_letters s : matches (letters L) s ↔ Forall (λ a, L a = true) s.
Proof.
  split.
  - intros H. remember (letters L) as r eqn:Hr. unfold letters in Hr.
    induction H as [| | | | | |r0 s1 s2 H1 _ H2 IH]; try discriminate; [constructor|].
    injection Hr as ->. inversion H1; subst. constructor; auto.
  - induction 1 as [|a s Ha Hs IH]; [constructor|].
    apply (matches_star_more _ [a] s); [by constructor|done].
Qed.

Lemma matches_accepts r s : matches r s → Forall (λ a, accepts_char r a = true) s.
Proof.
  induction 1; simpl; repeat constructor; try done.
  - by rewrite Ascii.eqb_refl.
  - apply Forall_app. split; eapply Forall_impl; eauto; simpl; intros ? ->; auto using orb_true_r.
  - eapply Forall_impl; eauto. simpl. by intros ? ->.
  - eapply Forall_impl; eauto. simpl. intros ? ->. apply orb_true_r.
  - apply Forall_app. split; [|done]. done.
Qed.

Lemma matches_alternation_sound s :
  matches (alternation L) s → Forall (letter_or_pipe L) s.
Proof.
  intros H%matches_accepts. eapply Forall_impl; [exact H|].
  intros a. simpl. unfold letter_or_pipe.
  destruct (L a); [auto|]. simpl. destruct (Ascii.eqb_spec a "|"); [auto|done].
Qed.

Lemma matches_alternation_complete s :
  Forall (letter_or_pipe L) s → matches (alternation L) s.
Proof.
  intros Hs.
  assert (Forall (λ a, L a = true) s ∨ matches (Star (pair_of_runs L)) s) as [H|H].
  { induction Hs as [|a s [Ha| ->] Hs [IH|IH]].
    - left. constructor.
    - left. by constructor.
    - destruct (decide (s = [])) as [->|Hne]; [left; by repeat constructor|].
      right. inversion IH as [| | | | |r0 Hnil|r0 s1 s2 H1 H2]; subst; [done|].
      inversion H1 as [| |? ? x y Hx Hy| | | |]; subst.
      change (a :: (x ++ y) ++ s2) with (((a :: x) ++ y) ++ s2).
      apply matches_star_more; [|done]. apply matches_seq; [|done].
      apply matches_letters. constructor; [done|]. by apply matches_letters.
    - right. rewrite <- (app_nil_r ("|" :: s)).
      apply (matches_star_more _ ("|" :: s) []); [|constructor].
      apply (matches_seq _ _ [] ("|" :: s)); [constructor|].
      apply (matches_seq _ _ ["|"] s); [constructor|]. by apply matches_letters.
    - right. apply (matches_star_more _ ["|"] s); [|done].
      apply (matches_seq _ _ [] ["|"]); [constructor|].
      apply (matches_seq _ _ ["|"] []); constructor. }
  - apply matches_alt_l. by apply matches_letters.
  - apply matches_alt_r, matches_alt_l. done.
Qed.

Lemma matches_alternation s : matches (alternation L) s ↔ Forall (letter_or_pipe L) s.
Proof. split; [apply matches_alternation_sound|apply matches_alternation_complete]. Qed.

(** A span of the group pattern or of the optional pattern: the two
    delimiters around characters of the alphabet and pipes. *)
Lemma matches_delimited o c s :
  matches (Seq (Lit o) (Seq (alternation L) (Lit c))) s ↔
  ∃ mid, s = o :: mid ++ [c] ∧ Forall (letter_or_pipe L) mid.
Proof.
  split.
  - intros H. inversion H as [| |? ? s1 s2 H1 H2| | | |]; subst.
    inversion H1; subst. inversion H2 as [| |? ? t1 t2 Ht1 Ht2| | | |]; subst.
    inversion Ht2; subst. exists t1. split; [done|]. by apply matches_alternation.
  - intros (mid & -> & Hmid). apply (matches_seq _ _ [o]); [constructor|].
    apply matches_seq; [|constructor]. by apply matches_alternation.
Qed.

Lemma matches_words s :
  matches (WORDS_REGEX L) s ↔ s ≠ [] ∧ Forall (λ a, L a = true) s.
Proof.
  unfold WORDS_REGEX, Plus. split.
  - intros H. inversion H as [| |? ? s1 s2 H1 H2| | | |]; subst.
    inversion H1; subst. split; [done|]. constructor; [done|]. by apply matches_letters.
  - intros [Hne H]. destruct H as [|a s Ha Hs]; [done|].
    apply (matches_seq _ _ [a] s); [by constructor|]. by apply matches_letters.
Qed.

End pattern_languages.

(** * The word-only check *)

Section words_only.

Variable L : ascii → bool.

Lemma repeat_greedy_letters s : ∀ fuel,
  Forall (λ a, L a = true) s → length s ≤ fuel →
  repeat_greedy (backtrack (Class L)) Some fuel s = Some [].
Proof.
  induction s as [|a s IH]; intros fuel Hs Hlen.
  - by destruct fuel.
  - destruct fuel as [|fuel]; [simpl in Hlen; lia|].
    apply Forall_cons in Hs as [Ha Hs]. simpl. rewrite Ha.
    rewrite decide_True by lia. rewrite IH; [done..|]. simpl in Hlen. lia.
Qed.

Lemma words_only_true s :
  words_only L s = Returns true ↔ s ≠ [] ∧ Forall (λ a, L a = true) s.
Proof.
  unfold words_only. split.
  - destruct (search _ s) as [w|] eqn:E; [|done]. intros [= Hw].
    apply bool_decide_eq_true in Hw as ->.
    apply search_sound in E as (p & q & _ & Hm). by apply matches_words.
  - intros [Hne Hs]. destruct s as [|a s]; [done|].
    apply Forall_cons in Hs as [Ha Hs].
    rewrite search_unfold. simpl. rewrite Ha.
    rewrite repeat_greedy_letters by done. simpl. rewrite take_ge by lia.
    by rewrite bool_decide_eq_true_2.
Qed.

Lemma words_only_raises s :
  words_only L s = Raises ↔ Forall (λ a, L a = false) s.
Proof.
  unfold words_only. split.
  - destruct (search _ s) as [w|] eqn:E; [done|]. intros _.
    apply Forall_forall. intros a Ha. destruct (L a) eqn:HLa; [|done].
    apply list_elem_of_split in Ha as (p & q & ->).
    destruct (search_complete (WORDS_REGEX L) p [a] q) as [w Hw].
    + apply matches_words. split; [done|]. by constructor.
    + simpl in Hw. congruence.
  - intros Hs. destruct (search _ s) as [w|] eqn:E; [|done].
    apply search_sound in E as (p & q & -> & Hm).
    apply matches_words in Hm as [Hne Hw]. destruct w as [|a w]; [done|].
    apply Forall_cons in Hw as [Ha _].
    rewrite Forall_app, Forall_app, Forall_cons in Hs.
    destruct Hs as (_ & (Ha' & _) & _). congruence.
Qed.

End words_only.

(** * The engine, loop by loop *)

Section loops.

Variable order : gset str → list str.
Hypothesis order_perm : ∀ X, order X ≡ₚ elements X.

Lemma elem_of_order X x : x ∈ order X ↔ x ∈ X.
Proof. by rewrite order_perm, elem_of_elements. Qed.

Lemma NoDup_order X : NoDup (order X).
Proof. rewrite order_perm. apply NoDup_elements. Qed.

(** *** The three loops as unions over the candidates *)

Lemma foldl_union (f : gset str → str → gset str) :
  (∀ acc c, f acc c = acc ∪ f ∅ c) →
  ∀ l acc x, x ∈ foldl f acc l ↔ x ∈ acc ∨ ∃ c, c ∈ l ∧ x ∈ f ∅ c.
Proof.
  intros Hf. induction l as [|c l IH]; intros acc x; simpl.
  - split; [auto|]. intros [H|(c & Hc & _)]; [done|]. by apply not_elem_of_nil in Hc.
  - rewrite IH, Hf, elem_of_union. split.
    + intros [[H|H]|(c' & Hc' & H)]; [by left|right..].
      * exists c. split; [by left|done].
      * exists c'. split; [by right|done].
    + intros [H|(c' & [->|Hc']%elem_of_cons & H)]; [by left; left|by left; right|].
      right. by exists c'.
Qed.

Lemma expand_options_union L acc c :
  expand_options L acc c = acc ∪ expand_options L ∅ c.
Proof.
  unfold expand_options. destruct (fullmatch _ c) as [m|]; [|set_solver].
  destruct (decide (m = [])); set_solver.
Qed.

Lemma expand_group_union L acc c :
  expand_group L acc c = acc ∪ expand_group L ∅ c.
Proof.
  unfold expand_group. destruct (search _ c) as [m|]; [|set_solver].
  destruct (decide (m = [])); set_solver.
Qed.

Lemma expand_optionals_union L acc c :
  expand_optionals L acc c = acc ∪ expand_optionals L ∅ c.
Proof.
  unfold expand_optionals. destruct (search _ c) as [m|]; [|set_solver].
  destruct (decide (m = [])); set_solver.
Qed.

(** The second loop stops at the first candidate that is not valid, so it
    gives up exactly when there is one; otherwise it logs nothing and
    gathers what [expand_group] makes of each candidate. *)
Lemma expand_groups_spec L : ∀ l acc,
  match (expand_groups L acc l).1 with
  | None => Exists (λ c, (validate_bnf_groups c).1 = false) l
  | Some G =>
      Forall (λ c, (validate_bnf_groups c).1 = true) l ∧
      (expand_groups L acc l).2 = [] ∧
      ∀ x, x ∈ G ↔ x ∈ acc ∨ ∃ c, c ∈ l ∧ x ∈ expand_group L ∅ c
  end.
Proof.
  induction l as [|c l IH]; intros acc; simpl.
  - split; [constructor|]. split; [done|]. intros x. split; [auto|].
    intros [H|(c & Hc & _)]; [done|]. by apply not_elem_of_nil in Hc.
  - destruct (validate_bnf_groups c).1 eqn:Hv; simpl; [|by left].
    specialize (IH (expand_group L acc c)).
    destruct (expand_groups L (expand_group L acc c) l).1 as [G|]; [|by right].
    destruct IH as (Hall & Hlog & HG). split; [by constructor|]. split.
    + rewrite Hlog, app_nil_r.
      by apply validate_bnf_groups_log.
    + intros x. rewrite HG, expand_group_union, elem_of_union. split.
      * intros [[H|H]|(c' & Hc' & H)]; [by left|right..].
        -- exists c. split; [by left|done].
        -- exists c'. split; [by right|done].
      * intros [H|(c' & [->|Hc']%elem_of_cons & H)]; [by left; left|by left; right|].
        right. by exists c'.
Qed.

Lemma expansion_round_None L W :
  (expansion_round order L W).1 = None ↔
  ∃ c y, c ∈ W ∧ y ∈ expand_options L ∅ c ∧ (validate_bnf_groups y).1 = false.
Proof.
  unfold expansion_round. cbv zeta.
  pose proof (expand_groups_spec L
    (order (foldl (expand_options L) ∅ (order W))) ∅) as Hspec.
  destruct (expand_groups L ∅ _).1 as [G|]; simpl.
  - split; [done|]. intros (c & y & Hc & Hy & Hv). destruct Hspec as (Hall & _).
    rewrite Forall_forall in Hall. rewrite Hall in Hv; [done|].
    apply elem_of_order, (foldl_union _ (expand_options_union L)). right.
    exists c. by rewrite elem_of_order.
  - split; [|done]. intros _. apply Exists_exists in Hspec as (y & Hy & Hv).
    apply elem_of_order, (foldl_union _ (expand_options_union L)) in Hy
      as [Hy|(c & Hc & Hy)]; [done|].
    exists c, y. by rewrite <- elem_of_order.
Qed.

Lemma expansion_round_Some L W W' :
  (expansion_round order L W).1 = Some W' →
  (expansion_round order L W).2 = [] ∧ ∀ x, x ∈ W' ↔ ∃ c, c ∈ W ∧ round_of L c x.
Proof.
  unfold expansion_round. cbv zeta.
  pose proof (expand_groups_spec L
    (order (foldl (expand_options L) ∅ (order W))) ∅) as Hspec.
  destruct (expand_groups L ∅ _) as [[G|] log]; simpl in *; [|done].
  destruct Hspec as (_ & -> & HG). intros [= <-]. split; [done|].
  intros x. rewrite (foldl_union _ (expand_optionals_union L)). split.
  - intros [H|(z & Hz & Hx)]; [done|].
    apply elem_of_order, HG in Hz as [Hz|(y & Hy & Hz)]; [done|].
    apply elem_of_order, (foldl_union _ (expand_options_union L)) in Hy
      as [Hy|(c & Hc & Hy)]; [done|].
    exists c. split; [by apply elem_of_order|]. by exists y, z.
  - intros (c & Hc & y & z & Hy & Hz & Hx). right. exists z. split; [|done].
    apply elem_of_order, HG. right. exists y. split; [|done].
    apply elem_of_order, (foldl_union _ (expand_options_union L)). right.
    exists c. split; [by apply elem_of_order|done].
Qed.

End loops.

Section engine_facts.

Variable LANGUAGE_UNICODE_ALPHABET : str → option (ascii → bool).
Variable order : gset str → list str.

Lemma lower_char_idemp c : lower_char (lower_char c) = lower_char c.
Proof. destruct c as [[] [] [] [] [] [] [] []]; reflexivity. Qed.

Lemma lower_idemp s : lower (lower s) = lower s.
Proof.
  unfold lower. rewrite map_map. apply map_ext. intros. apply lower_char_idemp.
Qed.

Lemma is_words_only_supported s language_code L :
  LANGUAGE_UNICODE_ALPHABET (lower language_code) = Some L →
  is_words_only LANGUAGE_UNICODE_ALPHABET s language_code = (words_only L s, []).
Proof.
  intros HL. unfold is_words_only, words_only. rewrite HL.
  by destruct (search _ s).
Qed.

Lemma are_all_words_only_loop_supported l language_code L :
  LANGUAGE_UNICODE_ALPHABET (lower language_code) = Some L →
  are_all_words_only_loop LANGUAGE_UNICODE_ALPHABET l language_code
  = (all_words_only L l, []).
Proof.
  intros HL. induction l as [|s l IH]; [done|]. simpl.
  rewrite (is_words_only_supported s _ L) by (by rewrite lower_idemp).
  unfold mbind, run_bind. simpl.
  destruct (words_only L s) as [[]| |]; simpl; try done.
  by rewrite IH.
Qed.

Lemma all_words_only_true L l :
  all_words_only L l = Returns true ↔ Forall (λ s, words_only L s = Returns true) l.
Proof.
  induction l as [|s l IH]; simpl.
  - split; [constructor|done].
  - rewrite Forall_cons, <- IH.
    destruct (words_only L s) as [[]| |]; split; try done; by intros [? ?].
Qed.

Lemma all_words_only_false L l :
  all_words_only L l = Returns false → Exists (λ s, words_only L s = Returns false) l.
Proof.
  induction l as [|s l IH]; simpl; [done|].
  destruct (words_only L s) as [[]| |] eqn:E; try done.
  - intros H. right. auto.
  - intros _. by left.
Qed.

(** The check over the candidates raises exactly when the first candidate
    visited that is not word-only is one on which the check of a string
    raises. *)
Lemma all_words_only_raises_first L l :
  all_words_only L l = Raises ↔
  ∃ before b after, l = before ++ b :: after ∧
    (∀ x, x ∈ before → words_only L x = Returns true) ∧ words_only L b = Raises.
Proof.
  induction l as [|s l IH]; simpl.
  - split; [done|]. by intros ([|??] & ? & ? & ? & _).
  - destruct (words_only L s) as [[]| |] eqn:E.
    + rewrite IH. split.
      * intros (before & b & after & -> & Hbefore & Hb).
        exists (s :: before), b, after. split; [done|]. split; [|done].
        intros x [->|?]%elem_of_cons; auto.
      * intros ([|s' before] & b & after & [= -> Hl] & Hbefore & Hb); [congruence|].
        exists before, b, after. split; [done|]. split; [|done].
        intros x Hx. apply Hbefore. by right.
    + split; [done|].
      intros ([|s' before] & b & after & [= -> Hl] & Hbefore & Hb); [congruence|].
      rewrite Hbefore in E by (by left). done.
    + split; [|done]. intros _. exists [], s, l. split; [done|]. split; [|done].
      by intros x ?%elem_of_nil.
    + split; [done|].
      intros ([|s' before] & b & after & [= -> Hl] & Hbefore & Hb); [congruence|].
      rewrite Hbefore in E by (by left). done.
Qed.

Lemma all_words_only_no_overflow L l : all_words_only L l ≠ Overflows.
Proof.
  induction l as [|s l IH]; simpl; [done|].
  destruct (words_only L s) as [[]| |] eqn:E; try done.
  unfold words_only in E. by destruct (search _ s).
Qed.

(** A call with a frame to spare, a supported language and a non-empty
    working set runs one round and then returns, raises or recurses. *)
Lemma expand_bnf_recursive_unfold frames W language_code L :
  LANGUAGE_UNICODE_ALPHABET (lower language_code) = Some L → W ≠ ∅ →
  expand_bnf_recursive LANGUAGE_UNICODE_ALPHABET order (S frames) W language_code =
  let round := expansion_round order L W in
  match round.1 with
  | None => (Returns [], round.2)
  | Some W' =>
      match all_words_only L (order W') with
      | Returns true => (Returns (sorted (order W')), round.2)
      | Returns false =>
          let rest :=
            expand_bnf_recursive LANGUAGE_UNICODE_ALPHABET order frames W' language_code in
          (rest.1, round.2 ++ rest.2)
      | Raises => (Raises, round.2)
      | Overflows => (Overflows, round.2)
      end
  end.
Proof.
  intros HL HW. cbn [expand_bnf_recursive]. rewrite HL.
  rewrite decide_False by done. cbv zeta.
  destruct (expansion_round order L W) as [[W'|] log]; simpl; [|done].
  unfold are_all_words_only.
  rewrite (are_all_words_only_loop_supported _ _ L) by (by rewrite lower_idemp).
  unfold mbind, run_bind, logging_of. simpl.
  destruct (all_words_only L (order W')) as [[]| |]; simpl;
    by rewrite ?app_nil_r.
Qed.

End engine_facts.

Section claims.

Variable LANGUAGE_UNICODE_ALPHABET : str → option (ascii → bool).
Variable order : gset str → list str.
Hypothesis order_perm : ∀ X, order X ≡ₚ elements X.


Lemma are_all_words_only_supported W language_code L :
  LANGUAGE_UNICODE_ALPHABET (lower language_code) = Some L →
  are_all_words_only LANGUAGE_UNICODE_ALPHABET order W (lower language_code)
  = (all_words_only L (order W), []).
Proof.
  intros HL. unfold are_all_words_only.
  apply are_all_words_only_loop_supported. by rewrite lower_idemp.
Qed.

Lemma expand_bnf_recursive_recurses frames language_code W W' :
  recurses LANGUAGE_UNICODE_ALPHABET order language_code W W' →
  (expand_bnf_recursive LANGUAGE_UNICODE_ALPHABET order (S frames) W language_code).1
  = (expand_bnf_recursive LANGUAGE_UNICODE_ALPHABET order frames W' language_code).1.
Proof.
  intros (L & HL & HW & Hround & Hall).
  rewrite (expand_bnf_recursive_unfold _ _ _ _ _ L) by done. cbv zeta.
  rewrite (are_all_words_only_supported _ _ L) in Hall by done. simpl in Hall.
  by rewrite Hround, Hall.
Qed.

Lemma expand_bnf_recursive_nsteps n frames language_code W W' :
  nsteps (recurses LANGUAGE_UNICODE_ALPHABET order language_code) n W W' →
  (expand_bnf_recursive LANGUAGE_UNICODE_ALPHABET order (n + frames) W language_code).1
  = (expand_bnf_recursive LANGUAGE_UNICODE_ALPHABET order frames W' language_code).1.
Proof.
  induction 1 as [|n W W1 W' Hstep _ IH]; [done|].
  rewrite Nat.add_succ_l. by rewrite (expand_bnf_recursive_recurses _ _ _ W1).
Qed.

(** C8. For a language identifier whose lower-case form is not a key of
    the alphabet table, [expand_bnf_recursive] returns the empty list and
    logs the unsupported-language error, once, whatever the working set;
    no round is run. *)
Theorem unsupported_language_returns_empty frames W language_code :
  LANGUAGE_UNICODE_ALPHABET (lower language_code) = None →
  expand_bnf_recursive LANGUAGE_UNICODE_ALPHABET order (S frames) W language_code
  = (Returns [], [LanguageNotSupported]).
Proof. intros HL. simpl. by rewrite HL. Qed.

(** C5. Whatever list [expand_bnf_recursive] returns has no duplicates and
    is in ascending lexicographic order. *)
Theorem returned_list_sorted_without_duplicates frames W language_code l :
  (expand_bnf_recursive LANGUAGE_UNICODE_ALPHABET order frames W language_code).1
  = Returns l →
  NoDup l ∧ Sorted str_le l.
Proof.
  revert W. induction frames as [|frames IH]; intros W H; [done|].
  destruct (LANGUAGE_UNICODE_ALPHABET (lower language_code)) as [L|] eqn:HL.
  - destruct (decide (W = ∅)) as [->|HW].
    + simpl in H. rewrite HL in H. simpl in H. injection H as <-.
      split; constructor.
    + rewrite (expand_bnf_recursive_unfold _ _ _ _ _ L) in H by done.
      cbv zeta in H. destruct (expansion_round order L W).1 as [W'|].
      * destruct (all_words_only L (order W')) as [[]| |]; simpl in H; try done.
        -- injection H as <-. split; [|apply sorted_Sorted].
           rewrite sorted_Permutation. by apply NoDup_order.
        -- by apply (IH W').
      * injection H as <-. split; constructor.
  - simpl in H. rewrite HL in H. injection H as <-. split; constructor.
Qed.

(** C4. As soon as one candidate that reaches the second loop of a round
    fails [validate_bnf_groups], the whole call returns the empty list,
    whatever the other candidates of the round would have expanded to; the
    round may be the first one or any later one. *)
Theorem invalid_candidate_empties_result n frames language_code L W0 W c y :
  nsteps (recurses LANGUAGE_UNICODE_ALPHABET order language_code) n W0 W →
  LANGUAGE_UNICODE_ALPHABET (lower language_code) = Some L →
  c ∈ W → y ∈ expand_options L ∅ c → (validate_bnf_groups y).1 = false →
  (expand_bnf_recursive LANGUAGE_UNICODE_ALPHABET order (n + S frames) W0 language_code).1
  = Returns [].
Proof.
  intros Hsteps HL Hc Hy Hv. rewrite (expand_bnf_recursive_nsteps _ _ _ _ W) by done.
  rewrite (expand_bnf_recursive_unfold _ _ _ _ _ L); [|done|set_solver].
  cbv zeta. assert ((expansion_round order L W).1 = None) as ->; [|done].
  apply (expansion_round_None order order_perm). by exists c, y.
Qed.

End claims.

Lemma unsupported_language_returns_empty_witness :
  expand_bnf_recursive sample_alphabet elements 1 {[ $"a|b" ]} $"xx"
  = (Returns [], [LanguageNotSupported]).
Proof.
  apply (unsupported_language_returns_empty sample_alphabet elements 0). reflexivity.
Defined.

Lemma returned_list_sorted_without_duplicates_witness :
  NoDup [ $"a"; $"b"; $"c" ] ∧ Sorted str_le [ $"a"; $"b"; $"c" ].
Proof.
  apply (returned_list_sorted_without_duplicates sample_alphabet elements
           (λ X, reflexivity _) 3 {[ $"(a|b|c)" ]} $"en").
  vm_compute. reflexivity.
Defined.

Lemma invalid_candidate_empties_result_witness :
  (expand_bnf_recursive sample_alphabet elements 1 {[ $"(a|b)"; $"(c]" ]} $"en").1
  = Returns [].
Proof.
  apply (invalid_candidate_empties_result sample_alphabet elements
           (λ X, reflexivity _) 0 0 $"en" english
           {[ $"(a|b)"; $"(c]" ]} {[ $"(a|b)"; $"(c]" ]} $"(c]" $"(c]").
  - constructor.
  - reflexivity.
  - apply (bool_decide_unpack _). vm_compute. exact I.
  - apply (bool_decide_unpack _). vm_compute. exact I.
  - vm_compute. reflexivity.
Defined.

(** * The substitution step *)

Section substitution.

Lemma remove_brackets s :
  remove_from_string s ["("; ")"; "["; "]"] = filter (λ c, is_bracket c = false) s.
Proof.
  unfold remove_from_string.
  apply (list_filter_iff (λ c, c ∉ ["("; ")"; "["; "]"]) (λ c, is_bracket c = false)).
  intros c.
  unfold is_bracket, is_opening, is_closing.
  rewrite !not_elem_of_cons, !orb_false_iff, !Ascii.eqb_neq.
  pose proof (not_elem_of_nil c). tauto.
Qed.

Lemma split_options_unfold span :
  split_options span = map strip (split "|" (filter (λ c, is_bracket c = false) span)).
Proof. unfold split_options. by rewrite remove_brackets. Qed.

Lemma delimiters_removed_filter span cleaned :
  delimiters_removed span cleaned ↔ cleaned = filter (λ c, is_bracket c = false) span.
Proof.
  split.
  - induction 1 as [|c span cleaned Hc _ IH|c span cleaned Hc _ IH]; [done|..].
    + rewrite filter_cons_False by congruence. done.
    + rewrite filter_cons_True by done. by f_equal.
  - intros ->. induction span as [|c span IH]; [constructor|].
    destruct (is_bracket c) eqn:Hc.
    + rewrite filter_cons_False by congruence. by constructor.
    + rewrite filter_cons_True by done. by constructor.
Qed.

(** The list [split_options] returns holds the alternatives of the span,
    and nothing else. *)
Lemma alternative_of_split_options span alternative :
  alternative_of span alternative ↔ alternative ∈ split_options span.
Proof.
  rewrite split_options_unfold, list_elem_of_fmap. split.
  - intros (cleaned & pieces & piece & ->%delimiters_removed_filter &
            ->%pieces_between_split & Hpiece & ->%trimmed_strip).
    by exists piece.
  - intros (piece & -> & Hpiece).
    exists (filter (λ c, is_bracket c = false) span),
           (split "|" (filter (λ c, is_bracket c = false) span)), piece.
    split; [by apply delimiters_removed_filter|]. split; [by apply pieces_between_split|].
    split; [done|apply strip_trimmed].
Qed.

Lemma elem_of_get_potential_options bnf matched_value x :
  x ∈ get_potential_options bnf matched_value ↔
  ∃ option, option ∈ split_options matched_value ∧ x = replace_once bnf matched_value option.
Proof.
  unfold get_potential_options. cbv zeta.
  generalize (split_options matched_value). intros l.
  assert (∀ acc : gset str, x ∈ foldl (λ expansions option,
              expansions ∪ {[replace_once bnf matched_value option]}) acc l ↔
            x ∈ acc ∨ ∃ option, option ∈ l ∧ x = replace_once bnf matched_value option)
    as H.
  { induction l as [|o l IH]; intros acc; simpl.
    - split; [auto|]. intros [H|(o & Ho & _)]; [done|]. by apply not_elem_of_nil in Ho.
    - rewrite IH, elem_of_union, elem_of_singleton. split.
      + intros [[H|H]|(o' & Ho' & H)]; [by left|right..].
        * exists o. split; [by left|done].
        * exists o'. split; [by right|done].
      + intros [H|(o' & [->|Ho']%elem_of_cons & H)]; [by left; left|by left; right|].
        right. by exists o'. }
  rewrite H. split; [|auto]. by intros [?|?].
Qed.

Lemma replace_double_space_cons c s :
  replace_double_space (c :: s) =
  match s with
  | c2 :: s2 =>
      if Ascii.eqb c " " && Ascii.eqb c2 " " then " " :: replace_double_space s2
      else c :: replace_double_space s
  | [] => [c]
  end.
Proof. by destruct s. Qed.

(** A stretch without a double space that does not run into a space of
    what follows is left as it is. *)
Lemma replace_double_space_frame x : ∀ y,
  double_space_free x = true →
  last x ≠ Some " " ∨ head y ≠ Some " " →
  replace_double_space (x ++ y) = x ++ replace_double_space y.
Proof.
  induction x as [|c1 x IH]; intros y Hfree Hedge; [done|].
  rewrite <- app_comm_cons, replace_double_space_cons.
  destruct x as [|c2 x].
  - simpl. destruct y as [|c2 y]; [done|].
    destruct (Ascii.eqb_spec c1 " ") as [->|]; [|done].
    destruct (Ascii.eqb_spec c2 " ") as [->|]; [|done].
    by destruct Hedge.
  - simpl in Hfree. apply andb_true_iff in Hfree as [Hpair Hfree].
    rewrite <- app_comm_cons. apply negb_true_iff in Hpair as ->.
    rewrite app_comm_cons, IH; [done..|].
    destruct Hedge as [Hedge|Hedge]; [left|by right].
    by rewrite last_cons_cons in Hedge.
Qed.

Lemma replace_double_space_free x :
  double_space_free x = true → replace_double_space x = x.
Proof.
  intros H. rewrite <- (app_nil_r x) at 1.
  rewrite replace_double_space_frame; [by rewrite app_nil_r|done|by right].
Qed.

End substitution.

(** C7. When the span occurs in the candidate, [get_potential_options]
    returns exactly the strings in which the leftmost occurrence of the span
    has given way to one of its alternatives: the span with its delimiters
    removed is cut at the pipes, and a piece of it without the white space
    at its two ends is an alternative.  What stands before and after that
    occurrence, later occurrences included, is kept, and as the result is
    a set, alternatives that give the same string give one element. *)
Theorem get_potential_options_first_occurrence (bnf matched_value p q : str) :
  bnf = p ++ matched_value ++ q →
  (∀ p' q', bnf = p' ++ matched_value ++ q' → length p ≤ length p') →
  ∀ x, x ∈ get_potential_options bnf matched_value ↔
       ∃ alternative, alternative_of matched_value alternative ∧
                      x = p ++ alternative ++ q.
Proof.
  intros Hbnf Hfirst x. rewrite elem_of_get_potential_options.
  split; intros (o & Ho%alternative_of_split_options & ->); exists o; (split; [done|]).
  - by apply replace_once_first.
  - symmetry. by apply replace_once_first.
Qed.

Lemma get_potential_options_first_occurrence_witness :
  get_potential_options $"x ( a |b| a) y ( a |b| a)" $"( a |b| a)"
  = {[ $"x a y ( a |b| a)"; $"x b y ( a |b| a)" ]}.
Proof.
  apply set_eq. intros x.
  rewrite (get_potential_options_first_occurrence
             $"x ( a |b| a) y ( a |b| a)" $"( a |b| a)" $"x " $" y ( a |b| a)").
  - rewrite elem_of_union, !elem_of_singleton. split.
    + intros (alternative & Halt%alternative_of_split_options & ->).
      vm_compute in Halt.
      apply elem_of_cons in Halt as [->|Halt]; [by left|].
      apply elem_of_cons in Halt as [->|Halt]; [by right|].
      apply elem_of_cons in Halt as [->|Halt]; [by left|].
      by apply elem_of_nil in Halt.
    + intros [->| ->]; [exists $"a"|exists $"b"]; (split; [|reflexivity]);
        apply alternative_of_split_options, (bool_decide_unpack _); vm_compute; exact I.
  - reflexivity.
  - intros p' q' H. destruct p' as [|c1 [|c2 p']]; [discriminate..|simpl; lia].
Defined.

(** C10. In the third loop the variant without the optional is the
    candidate with the leftmost occurrence of the optional span deleted and
    then every pair of spaces met by a scan from the left turned into one
    space, wherever the pair stands: a pair away from the place of the
    deletion is collapsed too, three spaces in a row come out as two, and
    stretches without a pair are kept. *)
Theorem absent_optional_variant (L : ascii → bool) (c optional : str) :
  search (OPTIONALS_REGEX L) c = Some optional →
  (∃ p q, c = p ++ optional ++ q ∧
          (∀ p' q', c = p' ++ optional ++ q' → length p ≤ length p') ∧
          ∀ acc, replace_double_space (p ++ q) ∈ expand_optionals L acc c) ∧
  (∀ x y, double_space_free x = true → last x ≠ Some " " →
          replace_double_space (x ++ " " :: " " :: y) = x ++ " " :: replace_double_space y) ∧
  (∀ x y, double_space_free x = true → last x ≠ Some " " → head y ≠ Some " " →
          replace_double_space (x ++ " " :: " " :: " " :: y)
          = x ++ " " :: " " :: replace_double_space y) ∧
  (∀ x y, double_space_free x = true → last x ≠ Some " " ∨ head y ≠ Some " " →
          replace_double_space (x ++ y) = x ++ replace_double_space y).
Proof.
  intros Hsearch. split; [|split; [|split]].
  - pose proof Hsearch as Hm. apply search_sound in Hm as (p0 & q0 & Hc & Hm).
    apply matches_delimited in Hm as (mid & Hopt & _).
    destruct (replace_once_spec optional [] c) as [(p & q & Hpq & Hrep & Hmin)|[_ Hnone]];
      [|by apply Hnone in Hc].
    exists p, q. split; [done|]. split; [done|]. intros acc.
    unfold expand_optionals. rewrite Hsearch.
    rewrite decide_False by (by rewrite Hopt). cbv zeta. rewrite Hrep. simpl.
    set_solver.
  - intros x y Hx Hlast. by rewrite replace_double_space_frame; [|done|left].
  - intros x y Hx Hlast Hhead. rewrite replace_double_space_frame; [|done|by left].
    do 2 f_equal. rewrite replace_double_space_cons.
    destruct y as [|c' y]; [done|]. simpl.
    destruct (Ascii.eqb_spec c' " ") as [->|]; done.
  - apply replace_double_space_frame.
Qed.

Lemma absent_optional_variant_witness :
  (∃ p q, $"a [b]  c  d" = p ++ $"[b]" ++ q ∧
          (∀ p' q', $"a [b]  c  d" = p' ++ $"[b]" ++ q' → length p ≤ length p') ∧
          ∀ acc, replace_double_space (p ++ q) ∈ expand_optionals english acc $"a [b]  c  d") ∧
  (∀ x y, double_space_free x = true → last x ≠ Some " " →
          replace_double_space (x ++ " " :: " " :: y) = x ++ " " :: replace_double_space y) ∧
  (∀ x y, double_space_free x = true → last x ≠ Some " " → head y ≠ Some " " →
          replace_double_space (x ++ " " :: " " :: " " :: y)
          = x ++ " " :: " " :: replace_double_space y) ∧
  (∀ x y, double_space_free x = true → last x ≠ Some " " ∨ head y ≠ Some " " →
          replace_double_space (x ++ y) = x ++ replace_double_space y).
Proof.
  apply (absent_optional_variant english $"a [b]  c  d" $"[b]"). vm_compute. reflexivity.
Defined.

Example absent_optional_three_spaces :
  replace_double_space (replace_once $"a [b]  c  d" $"[b]" []) = $"a  c d".
Proof. reflexivity. Qed.

(** * What a round does to the punctuation of a candidate *)

Section punctuation.

Lemma punct_count_app s1 s2 : punct_count (s1 ++ s2) = punct_count s1 + punct_count s2.
Proof. unfold punct_count. by rewrite filter_app, length_app. Qed.

Lemma punct_count_cons a s :
  punct_count (a :: s) = (if is_punct a then 1 else 0) + punct_count s.
Proof.
  unfold punct_count. rewrite filter_cons. destruct (is_punct a) eqn:E.
  - by rewrite decide_True.
  - by rewrite decide_False by congruence.
Qed.

Lemma punct_count_zero s : punct_count s = 0 ↔ ∀ a, a ∈ s → is_punct a = false.
Proof.
  induction s as [|a s IH]; [split; [by intros _ a Ha%elem_of_nil|done]|].
  rewrite punct_count_cons. split.
  - destruct (is_punct a) eqn:E; [done|]. simpl. intros H b [->|Hb]%elem_of_cons; [done|].
    by apply IH.
  - intros H. rewrite (H a) by (by left). simpl. apply IH. intros b Hb. apply H. by right.
Qed.

Lemma punct_count_subseteq_zero s1 s2 : s1 ⊆ s2 → punct_count s2 = 0 → punct_count s1 = 0.
Proof. rewrite !punct_count_zero. intros Hsub H a Ha. by apply H, Hsub. Qed.

Lemma in_notation_subseteq L s1 s2 : s1 ⊆ s2 → in_notation L s2 → in_notation L s1.
Proof. unfold in_notation. rewrite !Forall_forall. intros Hsub H a Ha. by apply H, Hsub. Qed.

(** The alternatives of a span hold no punctuation, and no character that
    is not in the span. *)
Lemma split_options_elem span option :
  option ∈ split_options span → punct_count option = 0 ∧ option ⊆ span.
Proof.
  rewrite split_options_unfold.
  intros (piece & -> & Hpiece)%list_elem_of_fmap.
  pose proof (split_no_sep _ _ _ Hpiece) as Hpipe.
  pose proof (split_subseteq _ _ _ Hpiece) as Hsub.
  pose proof (strip_subseteq piece) as Hstrip.
  split.
  - apply punct_count_zero. intros a Ha%Hstrip. unfold is_punct.
    pose proof (Hsub a Ha) as [Hbr _]%list_elem_of_filter. rewrite Hbr. simpl.
    apply Ascii.eqb_neq. by intros ->.
  - intros a Ha%Hstrip%Hsub. by apply list_elem_of_filter in Ha as [_ ?].
Qed.

Lemma split_options_nonempty span : split_options span ≠ [].
Proof.
  unfold split_options. cbv zeta. intros H%fmap_nil_inv. by apply split_nonempty in H.
Qed.

(** An induction principle that follows the scan of
    [replace_double_space]. *)
Lemma replace_double_space_ind (R : str → str → Prop) :
  R [] [] → (∀ c, R [c] [c]) →
  (∀ s r, R r s → R (" " :: r) (" " :: " " :: s)) →
  (∀ c s r, R r s → R (c :: r) (c :: s)) →
  ∀ s, R (replace_double_space s) s.
Proof.
  intros Hnil Hone Hpair Hskip s.
  assert (R (replace_double_space s) s ∧
          ∀ c, R (replace_double_space (c :: s)) (c :: s)) as [H _]; [|done].
  induction s as [|c2 s [IH1 IH2]]; [by split|]. split; [apply IH2|].
  intros c. rewrite replace_double_space_cons.
  destruct (Ascii.eqb_spec c " ") as [->|]; [|by apply Hskip].
  destruct (Ascii.eqb_spec c2 " ") as [->|]; [by apply Hpair|by apply Hskip].
Qed.

Lemma replace_double_space_subseteq s : replace_double_space s ⊆ s.
Proof.
  apply (replace_double_space_ind (λ r s, r ⊆ s)); [done..| |].
  - intros s' r H. by apply list_subseteq_skip, list_subseteq_cons.
  - intros c s' r H. by apply list_subseteq_skip.
Qed.

(** Only spaces go: whatever is kept by a filter that drops the space is
    the same before and after. *)
Lemma replace_double_space_filter (P : ascii → Prop) `{!∀ a, Decision (P a)} s :
  ¬ P " " → filter P (replace_double_space s) = filter P s.
Proof.
  intros Hspace. apply (replace_double_space_ind (λ r s, filter P r = filter P s)); [done..| |].
  - intros s' r Hr. rewrite !filter_cons. by rewrite !decide_False.
  - intros c s' r Hr. rewrite !filter_cons. by rewrite Hr.
Qed.

Lemma punct_count_replace_double_space s :
  punct_count (replace_double_space s) = punct_count s.
Proof. unfold punct_count. by rewrite replace_double_space_filter. Qed.

(** Replacing a delimited span by one of its alternatives takes at least
    the two delimiters away and brings no new character. *)
Lemma substituted_span (p q span option : str) o mid cl :
  span = o :: mid ++ [cl] → is_punct o = true → is_punct cl = true →
  punct_count option = 0 → option ⊆ span →
  p ++ option ++ q ⊆ p ++ span ++ q ∧
  punct_count (p ++ option ++ q) + 2 ≤ punct_count (p ++ span ++ q).
Proof.
  intros -> Ho Hcl Hopt Hsub. split.
  - intros a. rewrite !elem_of_app. intros [?|[?%Hsub|?]]; auto.
  - rewrite !punct_count_app, Hopt, punct_count_cons, punct_count_app, Ho,
      punct_count_cons, Hcl. lia.
Qed.

Lemma deleted_span (p q span : str) o mid cl :
  span = o :: mid ++ [cl] → is_punct o = true → is_punct cl = true →
  replace_double_space (p ++ q) ⊆ p ++ span ++ q ∧
  punct_count (replace_double_space (p ++ q)) + 2 ≤ punct_count (p ++ span ++ q).
Proof.
  intros Hspan Ho Hcl.
  destruct (substituted_span p q span [] o mid cl Hspan Ho Hcl eq_refl) as [Hsub Hcount];
    [apply list_subseteq_nil|].
  split.
  - etrans; [apply replace_double_space_subseteq|done].
  - by rewrite punct_count_replace_double_space.
Qed.

End punctuation.

Section shrinking.

Variable L : ascii → bool.

Lemma get_potential_options_cases c span x :
  x ∈ get_potential_options c span →
  ∃ option, option ∈ split_options span ∧
    ((∃ p q, c = p ++ span ++ q ∧ x = p ++ option ++ q) ∨
     (x = c ∧ ∀ p q, c ≠ p ++ span ++ q)).
Proof.
  intros (option & Hopt & ->)%elem_of_get_potential_options. exists option.
  split; [done|].
  destruct (replace_once_spec span option c) as [(p & q & Hc & -> & _)|[-> ?]]; [|by right].
  left. by exists p, q.
Qed.

Lemma get_potential_options_nonempty c span : get_potential_options c span ≠ ∅.
Proof.
  pose proof (split_options_nonempty span) as Hne.
  destruct (split_options span) as [|option options] eqn:E; [done|].
  intros Hempty.
  assert (replace_once c span option ∈ get_potential_options c span) as Hin.
  { apply elem_of_get_potential_options. exists option. split; [|done].
    rewrite E. by left. }
  rewrite Hempty in Hin. by apply not_elem_of_empty in Hin.
Qed.

(** When the span does not occur in the candidate, the candidate is all
    there is in the result. *)
Lemma get_potential_options_absent (bnf matched_value : str) :
  (∀ p q, bnf ≠ p ++ matched_value ++ q) →
  get_potential_options bnf matched_value = {[bnf]}.
Proof.
  intros Hnone. apply set_eq. intros x.
  rewrite elem_of_get_potential_options, elem_of_singleton. split.
  - intros (option & _ & ->).
    destruct (replace_once_spec matched_value option bnf) as [(p & q & Hb & _)|[-> _]];
      [by apply Hnone in Hb|done].
  - intros ->. pose proof (split_options_nonempty matched_value) as Hne.
    destruct (split_options matched_value) as [|option options] eqn:E; [done|].
    exists option. split; [by left|].
    destruct (replace_once_spec matched_value option bnf) as [(p & q & Hb & _)|[-> _]];
      [by apply Hnone in Hb|done].
Qed.

Lemma search_delimited o cl c span :
  search (Seq (Lit o) (Seq (alternation L) (Lit cl))) c = Some span →
  ∃ p q mid, c = p ++ span ++ q ∧ span = o :: mid ++ [cl] ∧
             Forall (letter_or_pipe L) mid.
Proof.
  intros (p & q & Hc & (mid & Hspan & Hmid)%matches_delimited)%search_sound.
  by exists p, q, mid.
Qed.

(** What either of the two substitution loops makes of a candidate: the
    characters stay within those of the candidate, the punctuation does not
    grow, and it shrinks by two at least when the pattern is found. *)
Lemma substituted_elem (o cl : ascii) (c x : str) (X : gset str) :
  is_punct o = true → is_punct cl = true →
  match search (Seq (Lit o) (Seq (alternation L) (Lit cl))) c with
  | None => X = {[c]}
  | Some span =>
      ∀ x' : str, x' ∈ X →
        x' ∈ get_potential_options c span ∨
        ∃ p q, c = p ++ span ++ q ∧ x' = replace_double_space (p ++ q)
  end →
  x ∈ X →
  x ⊆ c ∧ punct_count x ≤ punct_count c ∧
  (is_Some (search (Seq (Lit o) (Seq (alternation L) (Lit cl))) c) →
   punct_count x + 2 ≤ punct_count c).
Proof.
  intros Ho Hcl HX Hx.
  destruct (search _ c) as [span|] eqn:Hsearch.
  - apply search_delimited in Hsearch as (p0 & q0 & mid & Hc0 & Hspan & _).
    assert (x ⊆ c ∧ punct_count x + 2 ≤ punct_count c) as [? ?];
      [|split; [done|]; split; [lia|done]].
    destruct (HX x Hx) as [Hgpo|(p & q & -> & ->)].
    + apply get_potential_options_cases in Hgpo
        as (option & [Hzero Hsub]%split_options_elem & [(p & q & -> & ->)|[_ Hnone]]).
      * by apply (substituted_span p q span option o mid cl).
      * by apply Hnone in Hc0.
    + by apply (deleted_span p q span o mid cl).
  - subst X. apply elem_of_singleton in Hx as ->.
    split; [done|]. split; [done|]. by intros [? ?].
Qed.

Lemma expand_group_elem c x :
  x ∈ expand_group L ∅ c →
  x ⊆ c ∧ punct_count x ≤ punct_count c ∧
  (is_Some (search (GROUPS_REGEX L) c) → punct_count x + 2 ≤ punct_count c).
Proof.
  apply (substituted_elem "(" ")"); [done..|].
  unfold expand_group, GROUPS_REGEX. destruct (search _ c) as [span|] eqn:Hsearch.
  - apply search_delimited in Hsearch as (_ & _ & mid & _ & -> & _).
    rewrite decide_False by done. set_solver.
  - set_solver.
Qed.

Lemma expand_optionals_elem c x :
  x ∈ expand_optionals L ∅ c →
  x ⊆ c ∧ punct_count x ≤ punct_count c ∧
  (is_Some (search (OPTIONALS_REGEX L) c) → punct_count x + 2 ≤ punct_count c).
Proof.
  apply (substituted_elem "[" "]"); [done..|].
  unfold expand_optionals, OPTIONALS_REGEX. destruct (search _ c) as [span|] eqn:Hsearch.
  - pose proof Hsearch as (p0 & q0 & mid & Hc0 & Hspan & _)%search_delimited.
    rewrite decide_False by (by rewrite Hspan). cbv zeta.
    intros x'. rewrite !elem_of_union, elem_of_singleton.
    intros [[H|H]|H]; [done| |by left]. right.
    destruct (replace_once_spec span [] c) as [(p & q & Hc & Hrep & _)|[_ Hnone]];
      [|by apply Hnone in Hc0].
    exists p, q. by rewrite H, Hrep.
  - set_solver.
Qed.

Lemma expand_options_elem c x :
  x ∈ expand_options L ∅ c → x ⊆ c ∧ (x = c ∨ punct_count x = 0).
Proof.
  assert (x ∈ (∅ : gset str) ∪ {[c]} → x ⊆ c ∧ (x = c ∨ punct_count x = 0)) as Hsame.
  { rewrite elem_of_union, elem_of_singleton. intros [H| ->]; [done|]. auto. }
  unfold expand_options. destruct (fullmatch _ c) as [m|] eqn:Hm; [|done].
  apply fullmatch_sound in Hm as [-> _].
  destruct (decide (c = [])); [done|].
  rewrite elem_of_union, elem_of_list_to_set.
  intros [H|[Hzero Hsub]%split_options_elem]; [done|]. auto.
Qed.

Lemma expand_options_nonempty c : expand_options L ∅ c ≠ ∅.
Proof.
  unfold expand_options. destruct (fullmatch _ c) as [m|]; [|set_solver].
  destruct (decide (m = [])); [set_solver|].
  pose proof (split_options_nonempty m). destruct (split_options m); [done|]. set_solver.
Qed.

Lemma expand_group_nonempty c : expand_group L ∅ c ≠ ∅.
Proof.
  unfold expand_group. destruct (search _ c) as [m|]; [|set_solver].
  destruct (decide (m = [])); [set_solver|].
  pose proof (get_potential_options_nonempty c m). set_solver.
Qed.

Lemma expand_optionals_nonempty c : expand_optionals L ∅ c ≠ ∅.
Proof.
  unfold expand_optionals. destruct (search _ c) as [m|]; [|set_solver].
  destruct (decide (m = [])); set_solver.
Qed.

(** A candidate without brackets that is written in the notation is one
    bare alternation, and the first loop splits it. *)
Lemma expand_options_bare c x :
  in_notation L c → (∀ a, a ∈ c → is_bracket a = false) → c ≠ [] →
  x ∈ expand_options L ∅ c → punct_count x = 0.
Proof.
  intros Hc Hbare Hne. unfold expand_options.
  rewrite (fullmatch_complete _ c).
  - rewrite decide_False by done. rewrite elem_of_union, elem_of_list_to_set.
    intros [H|[Hzero _]%split_options_elem]; done.
  - apply matches_alternation. unfold in_notation in Hc. rewrite Forall_forall in *.
    intros a Ha. destruct (Hc a Ha) as [?|Hp]; [by left|right].
    unfold is_punct in Hp. rewrite (Hbare a Ha) in Hp. by apply Ascii.eqb_eq in Hp.
Qed.

(** A well-nested string with a bracket has a pair of delimiters with no
    bracket in between. *)
Lemma inner_span s :
  well_nested s → (∃ a, a ∈ s ∧ is_bracket a = true) →
  ∃ p o mid q, s = p ++ (o :: mid ++ [closer_of o]) ++ q ∧ is_opening o = true ∧
               Forall (λ a, is_bracket a = false) mid.
Proof.
  induction 1 as [|c s Hc Hs IH|o s1 s2 Ho Hs1 IH1 Hs2 IH2]; intros (a & Ha & Hbr).
  - by apply elem_of_nil in Ha.
  - apply elem_of_cons in Ha as [->|Ha]; [congruence|].
    destruct IH as (p & o & mid & q & -> & Ho & Hmid); [by exists a|].
    by exists (c :: p), o, mid, q.
  - destruct (decide (Forall (λ a, is_bracket a = false) s1)) as [Hfree|Hnot].
    + exists [], o, s1, s2. split; [|done]. simpl. by rewrite <- app_assoc.
    + apply not_Forall_Exists in Hnot; [|apply _].
      destruct (proj1 (Exists_exists _ _) Hnot) as (b & Hb & Hbb). simpl in Hbb.
      destruct IH1 as (p & o' & mid & q & -> & Ho' & Hmid).
      { exists b. split; [done|]. by apply not_false_iff_true. }
      exists (o :: p), o', mid, (q ++ closer_of o :: s2). split; [|done].
      simpl. f_equal. rewrite <- (app_assoc p). simpl. by rewrite <- app_assoc.
Qed.

(** A valid candidate of the notation with a bracket left has a span for
    the second or for the third loop. *)
Lemma span_found c :
  well_nested c → in_notation L c → (∃ a, a ∈ c ∧ is_bracket a = true) →
  is_Some (search (GROUPS_REGEX L) c) ∨ is_Some (search (OPTIONALS_REGEX L) c).
Proof.
  intros Hwn Hc Hbr.
  destruct (inner_span c Hwn Hbr) as (p & o & mid & q & -> & Ho & Hmid).
  assert (Forall (letter_or_pipe L) mid) as Hlp.
  { unfold in_notation in Hc. rewrite Forall_forall in *. intros a Ha.
    destruct (Hc a) as [?|Hp]; [rewrite !elem_of_app, elem_of_cons, elem_of_app; auto|by left|].
    right. unfold is_punct in Hp. rewrite (Hmid a Ha) in Hp. by apply Ascii.eqb_eq in Hp. }
  apply is_opening_cases in Ho as [-> | ->]; [left|right];
    apply search_complete, matches_delimited; by exists mid.
Qed.

(** One round on one candidate of the notation: no new characters, no more
    punctuation, and strictly less of it unless there was none. *)
Lemma round_of_shrinks c x :
  in_notation L c →
  (∀ y, y ∈ expand_options L ∅ c → (validate_bnf_groups y).1 = true) →
  round_of L c x →
  x ⊆ c ∧ punct_count x ≤ punct_count c ∧
  (0 < punct_count c → punct_count x < punct_count c).
Proof.
  intros Hc Hvalid (y & z & Hy & Hz & Hx).
  pose proof (Hvalid y Hy) as Hwn%validate_bnf_groups_well_nested.
  apply expand_options_elem in Hy as Hy'. destruct Hy' as [Hyc Hy'].
  pose proof (expand_group_elem _ _ Hz) as (Hzy & Hzle & Hzlt).
  pose proof (expand_optionals_elem _ _ Hx) as (Hxz & Hxle & Hxlt).
  split; [by etrans; [|etrans]|].
  destruct Hy' as [->|Hzero]; [|lia].
  split; [lia|]. intros Hpos.
  destruct (decide (Exists (λ a, is_bracket a = true) c)) as [Hbr|Hbare];
    rewrite Exists_exists in *.
  - destruct (span_found c Hwn Hc Hbr) as [Hg|Ho].
    + specialize (Hzlt Hg). lia.
    + destruct (search (GROUPS_REGEX L) c) as [g|] eqn:Hg.
      * specialize (Hzlt (mk_is_Some _ _ eq_refl)). lia.
      * assert (z = c) as ->.
        { unfold expand_group in Hz. rewrite Hg in Hz. set_solver. }
        specialize (Hxlt Ho). lia.
  - assert (punct_count c = 0); [|lia].
    apply (expand_options_bare c c); [done| |intros ->; vm_compute in Hpos; lia|done].
    intros a Ha. destruct (is_bracket a) eqn:E; [|done]. destruct Hbare. by exists a.
Qed.

End shrinking.

(** * Termination *)

Section termination.

Variable LANGUAGE_UNICODE_ALPHABET : str → option (ascii → bool).
Variable order : gset str → list str.
Hypothesis order_perm : ∀ X, order X ≡ₚ elements X.

Lemma words_only_plain L s :
  in_notation L s → punct_count s = 0 → words_only L s = Returns true ∨ s = [].
Proof.
  intros Hs Hzero. destruct s as [|a s]; [by right|]. left.
  apply words_only_true. split; [done|].
  unfold in_notation in Hs. rewrite Forall_forall in *. intros b Hb.
  destruct (Hs b Hb) as [?|Hp]; [done|].
  rewrite punct_count_zero in Hzero. rewrite (Hzero b Hb) in Hp. done.
Qed.

Lemma all_words_only_plain L l :
  Forall (λ s, in_notation L s ∧ punct_count s = 0) l →
  all_words_only L l ≠ Returns false.
Proof.
  intros Hl Hfalse%all_words_only_false.
  apply Exists_exists in Hfalse as (s & Hs & Hw).
  rewrite Forall_forall in Hl. destruct (Hl s Hs) as [Hn Hz].
  destruct (words_only_plain L s Hn Hz) as [Ht| ->]; [congruence|].
  by vm_compute in Hw.
Qed.

(** A round that does not give up keeps the working set within the
    notation and lowers the bound on its punctuation. *)
Lemma expansion_round_bound L W W' m :
  (∀ c, c ∈ W → in_notation L c) → (∀ c, c ∈ W → punct_count c ≤ m) →
  (expansion_round order L W).1 = Some W' →
  (∀ x, x ∈ W' → in_notation L x) ∧ (∀ x, x ∈ W' → punct_count x ≤ pred m).
Proof.
  intros Hnot Hbound Hround.
  assert (∀ c y, c ∈ W → y ∈ expand_options L ∅ c → (validate_bnf_groups y).1 = true)
    as Hvalid.
  { intros c y Hc Hy. destruct (validate_bnf_groups y).1 eqn:Hv; [done|].
    assert ((expansion_round order L W).1 = None); [|congruence].
    apply (expansion_round_None order order_perm). by exists c, y. }
  apply (expansion_round_Some order order_perm) in Hround as [_ HW'].
  assert (∀ x, x ∈ W' → ∃ c, c ∈ W ∧ x ⊆ c ∧ punct_count x ≤ punct_count c ∧
            (0 < punct_count c → punct_count x < punct_count c)) as Hstep.
  { intros x (c & Hc & Hx)%HW'. exists c. split; [done|].
    apply (round_of_shrinks L c x); [by apply Hnot|intros y; by apply (Hvalid c)|done]. }
  split; intros x (c & Hc & Hsub & Hle & Hlt)%Hstep.
  - by apply (in_notation_subseteq L x c), Hnot.
  - specialize (Hbound c Hc). lia.
Qed.

Lemma expand_bnf_recursive_bounded language_code L :
  LANGUAGE_UNICODE_ALPHABET (lower language_code) = Some L →
  ∀ m W extra,
  (∀ c, c ∈ W → in_notation L c) → (∀ c, c ∈ W → punct_count c ≤ m) →
  (expand_bnf_recursive LANGUAGE_UNICODE_ALPHABET order (S m + extra) W language_code).1
  ≠ Overflows.
Proof.
  intros HL. induction m as [|m IH]; intros W extra Hnot Hbound;
    (destruct (decide (W = ∅)) as [->|HW]; [by simpl; rewrite HL|]);
    rewrite Nat.add_succ_l;
    rewrite (expand_bnf_recursive_unfold _ _ _ _ _ L) by done; cbv zeta;
    destruct (expansion_round order L W).1 as [W'|] eqn:Hround; try done;
    destruct (expansion_round_bound L W W' _ Hnot Hbound Hround) as [Hnot' Hbound'];
    pose proof (all_words_only_no_overflow L (order W')) as Hno;
    destruct (all_words_only L (order W')) as [[]| |] eqn:Hall; try done; simpl.
  - exfalso. apply (all_words_only_plain L (order W')); [|done].
    apply Forall_forall. intros s Hs%(elem_of_order order order_perm).
    split; [by apply Hnot'|]. specialize (Hbound' s Hs). simpl in Hbound'. lia.
  - by apply IH.
Qed.

Lemma max_punct_count_bound W c : c ∈ W → punct_count c ≤ max_punct_count W.
Proof.
  intros Hc. apply max_list_elem_of_le, list_elem_of_fmap.
  exists c. by rewrite elem_of_elements.
Qed.

(** C1, as the code has it.  On working sets written with nothing but
    characters of the alphabet and grammar punctuation the recursion ends:
    one frame more than the largest punctuation count is enough for
    [expand_bnf_recursive] to return a list or raise.  On such working sets
    a round that gives back the set it was given only happens when every
    candidate is word-only or the empty string. *)
Theorem expansion_terminates_in_notation language_code L W :
  LANGUAGE_UNICODE_ALPHABET (lower language_code) = Some L →
  (∀ c, c ∈ W → in_notation L c) →
  (∀ extra,
     let result :=
       (expand_bnf_recursive LANGUAGE_UNICODE_ALPHABET order
          (S (max_punct_count W) + extra) W language_code).1 in
     (∃ l, result = Returns l) ∨ result = Raises) ∧
  ((expansion_round order L W).1 = Some W →
   ∀ c, c ∈ W →
     (is_words_only LANGUAGE_UNICODE_ALPHABET c language_code).1 = Returns true ∨ c = []).
Proof.
  intros HL Hnot. split.
  - intros extra result.
    pose proof (expand_bnf_recursive_bounded language_code L HL
                  (max_punct_count W) W extra Hnot (max_punct_count_bound W)) as H.
    fold result in H. destruct result; [left; by eexists|by right|done].
  - intros Hround c Hc. rewrite (is_words_only_supported _ _ _ L) by done. simpl.
    apply words_only_plain; [by apply Hnot|].
    assert (∀ m, (∀ c, c ∈ W → punct_count c ≤ m) →
                 ∀ c, c ∈ W → punct_count c ≤ 0) as H0.
    { induction m as [|m IH]; intros Hbound; [done|]. apply IH.
      by apply (expansion_round_bound L W W (S m)). }
    specialize (H0 _ (max_punct_count_bound W) c Hc). lia.
Qed.

End termination.

Lemma expansion_terminates_in_notation_witness :
  (∀ extra,
     let result :=
       (expand_bnf_recursive sample_alphabet elements
          (S (max_punct_count {[ $"(a|b) [c|d]" ]}) + extra) {[ $"(a|b) [c|d]" ]} $"en").1 in
     (∃ l, result = Returns l) ∨ result = Raises) ∧
  ((expansion_round elements english {[ $"(a|b) [c|d]" ]}).1 = Some {[ $"(a|b) [c|d]" ]} →
   ∀ c, c ∈ ({[ $"(a|b) [c|d]" ]} : gset str) →
     (is_words_only sample_alphabet c $"en").1 = Returns true ∨ c = []).
Proof.
  apply (expansion_terminates_in_notation sample_alphabet elements (λ X, reflexivity _)
           $"en" english {[ $"(a|b) [c|d]" ]}).
  - reflexivity.
  - intros c Hc. apply elem_of_singleton in Hc. subst c.
    apply (bool_decide_unpack _). vm_compute. exact I.
Defined.

(** C1, the counterexample.  With the sample alphabet, the candidate
    ["a.b"] is given back unchanged by a round, is not word-only, and no
    number of frames lets the call on it end.  And whatever the alphabet, a
    round gives the empty string back unchanged, on which the word-only
    check raises. *)
Lemma expansion_diverges_outside_notation :
  (expansion_round elements english {[ $"a.b" ]}).1 = Some {[ $"a.b" ]} ∧
  (are_all_words_only sample_alphabet elements {[ $"a.b" ]} $"en").1 = Returns false ∧
  (∀ frames,
     (expand_bnf_recursive sample_alphabet elements frames {[ $"a.b" ]} $"en").1
     = Overflows) ∧
  (∀ L, (expansion_round elements L {[ [] ]}).1 = Some {[ [] ]} ∧
        words_only L [] = Raises).
Proof.
  assert ((expansion_round elements english {[ $"a.b" ]}).1 = Some {[ $"a.b" ]}) as Hround
    by (vm_compute; reflexivity).
  split; [done|]. split; [vm_compute; reflexivity|].
  split; [|intros L; split; [vm_compute; reflexivity|reflexivity]].
  induction frames as [|frames IH]; [done|].
  rewrite (expand_bnf_recursive_unfold _ _ _ _ _ english); [|done|].
  - cbv zeta. rewrite Hround.
    assert (all_words_only english (elements ({[ $"a.b" ]} : gset str)) = Returns false)
      as -> by (vm_compute; reflexivity).
    exact IH.
  - intros H. assert ($"a.b" ∈ (∅ : gset str)) as Hin by (rewrite <- H; set_solver).
    by apply not_elem_of_empty in Hin.
Qed.

(** * The iteration order does not show in a returned list *)

Section iteration_order.

Variable LANGUAGE_UNICODE_ALPHABET : str → option (ascii → bool).
Variables order1 order2 : gset str → list str.
Hypothesis order1_perm : ∀ X, order1 X ≡ₚ elements X.
Hypothesis order2_perm : ∀ X, order2 X ≡ₚ elements X.

Lemma expansion_round_order L W :
  (expansion_round order1 L W).1 = (expansion_round order2 L W).1.
Proof.
  destruct (expansion_round order1 L W).1 as [W1|] eqn:H1;
    destruct (expansion_round order2 L W).1 as [W2|] eqn:H2; [f_equal| | |done].
  - apply (expansion_round_Some order1 order1_perm) in H1 as [_ H1].
    apply (expansion_round_Some order2 order2_perm) in H2 as [_ H2].
    apply set_eq. intros x. by rewrite H1, H2.
  - apply (expansion_round_None order2 order2_perm) in H2.
    apply (expansion_round_None order1 order1_perm) in H2. congruence.
  - apply (expansion_round_None order1 order1_perm) in H1.
    apply (expansion_round_None order2 order2_perm) in H1. congruence.
Qed.

Lemma all_words_only_true_order L W :
  all_words_only L (order1 W) = Returns true → all_words_only L (order2 W) = Returns true.
Proof. rewrite !all_words_only_true. by rewrite order1_perm, order2_perm. Qed.

(** When a call returns after its first round, it returns the same list
    and logs nothing under every iteration order. *)
Lemma returns_after_one_round frames language_code L W W' :
  LANGUAGE_UNICODE_ALPHABET (lower language_code) = Some L → W ≠ ∅ →
  (expansion_round order1 L W).1 = Some W' →
  all_words_only L (order1 W') = Returns true →
  expand_bnf_recursive LANGUAGE_UNICODE_ALPHABET order2 (S frames) W language_code
  = (Returns (sorted (order1 W')), []).
Proof.
  intros HL HW Hround Hall.
  rewrite (expand_bnf_recursive_unfold _ _ _ _ _ L) by done. cbv zeta.
  rewrite expansion_round_order in Hround.
  pose proof (expansion_round_Some order2 order2_perm L W W' Hround) as [Hlog _].
  rewrite Hround, Hlog, (all_words_only_true_order L W' Hall).
  do 2 f_equal. apply sorted_order. by rewrite order1_perm, order2_perm.
Qed.

End iteration_order.

(** * Only the characters at hand matter *)

Section agreement.

Variable chars : list ascii.

Lemma repeat_greedy_agree body body' k k' :
  (∀ s k1 k1', s ⊆ chars → (∀ s', s' ⊆ chars → k1 s' = k1' s') → body s k1 = body' s k1') →
  (∀ s', s' ⊆ chars → k s' = k' s') →
  ∀ fuel s, s ⊆ chars → repeat_greedy body k fuel s = repeat_greedy body' k' fuel s.
Proof.
  intros Hbody Hk. induction fuel as [|fuel IH]; intros s Hs; simpl; [by apply Hk|].
  rewrite (Hbody s _ (λ s', if decide (length s' < length s)
                            then repeat_greedy body' k' fuel s' else None) Hs).
  - by rewrite Hk.
  - intros s' Hs'. destruct (decide _); [by apply IH|done].
Qed.

(** The matcher only asks the classes about characters of the string. *)
Lemma backtrack_agree r : ∀ r' s k k',
  regex_agree chars r r' → s ⊆ chars → (∀ s', s' ⊆ chars → k s' = k' s') →
  backtrack r s k = backtrack r' s k'.
Proof.
  induction r as [c|p|r1 IH1 r2 IH2|r1 IH1 r2 IH2|r1 IH1];
    intros [c'|p'|r1' r2'|r1' r2'|r1'] s k k' Hr Hs Hk; try done; simpl in *.
  - subst c'. destruct s as [|x s]; [done|]. destruct (Ascii.eqb x c); [|done].
    apply Hk. intros a Ha. apply Hs. by right.
  - destruct s as [|x s]; [done|]. rewrite <- Hr by (apply Hs; by left).
    destruct (p x); [|done]. apply Hk. intros a Ha. apply Hs. by right.
  - destruct Hr as [Hr1 Hr2]. apply IH1; [done..|].
    intros s' Hs'. by apply IH2.
  - destruct Hr as [Hr1 Hr2]. rewrite (IH1 r1' s k k') by done.
    by rewrite (IH2 r2' s k k').
  - apply repeat_greedy_agree; [|done..].
    intros s0 k1 k1' Hs0 Hk1. by apply IH1.
Qed.

Lemma search_agree r r' : ∀ s,
  regex_agree chars r r' → s ⊆ chars → search r s = search r' s.
Proof.
  intros s Hr. induction s as [|x s IH]; intros Hs.
  - rewrite (search_unfold r), (search_unfold r').
    by rewrite (backtrack_agree r r' [] Some Some).
  - rewrite (search_unfold r), (search_unfold r').
    rewrite (backtrack_agree r r' (x :: s) Some Some) by done.
    rewrite IH; [done|]. intros a Ha. apply Hs. by right.
Qed.

Lemma fullmatch_agree r r' s :
  regex_agree chars r r' → s ⊆ chars → fullmatch r s = fullmatch r' s.
Proof.
  intros Hr Hs. unfold fullmatch.
  by rewrite (backtrack_agree r r' s
                (λ rest, match rest with [] => Some [] | _ => None end)
                (λ rest, match rest with [] => Some [] | _ => None end) Hr Hs).
Qed.

Variables L L' : ascii → bool.
Hypothesis L_agree : ∀ a, a ∈ chars → L a = L' a.

Lemma alternation_agree : regex_agree chars (alternation L) (alternation L').
Proof. simpl. by repeat split. Qed.

Lemma expand_options_agree c :
  c ⊆ chars → expand_options L ∅ c = expand_options L' ∅ c.
Proof.
  intros Hc. unfold expand_options, OPTIONS_REGEX.
  by rewrite (fullmatch_agree _ (alternation L')) by (done || apply alternation_agree).
Qed.

Lemma expand_group_agree c :
  c ⊆ chars → expand_group L ∅ c = expand_group L' ∅ c.
Proof.
  intros Hc. unfold expand_group.
  rewrite (search_agree _ (GROUPS_REGEX L')); [done| |done].
  split; [done|]. split; [apply alternation_agree|done].
Qed.

Lemma expand_optionals_agree c :
  c ⊆ chars → expand_optionals L ∅ c = expand_optionals L' ∅ c.
Proof.
  intros Hc. unfold expand_optionals.
  rewrite (search_agree _ (OPTIONALS_REGEX L')); [done| |done].
  split; [done|]. split; [apply alternation_agree|done].
Qed.

Lemma words_only_agree s : s ⊆ chars → words_only L s = words_only L' s.
Proof.
  intros Hs. unfold words_only.
  rewrite (search_agree _ (WORDS_REGEX L')); [done| |done]. by split.
Qed.

End agreement.

Section agreement_round.

Variable order : gset str → list str.
Hypothesis order_perm : ∀ X, order X ≡ₚ elements X.
Variable chars : list ascii.
Variables L L' : ascii → bool.
Hypothesis L_agree : ∀ a, a ∈ chars → L a = L' a.

Lemma round_of_agree c x : c ⊆ chars → round_of L c x → round_of L' c x ∧ x ⊆ chars.
Proof.
  intros Hc (y & z & Hy & Hz & Hx).
  pose proof (expand_options_elem L c y Hy) as [Hyc _].
  pose proof (expand_group_elem L y z Hz) as [Hzy _].
  pose proof (expand_optionals_elem L z x Hx) as [Hxz _].
  assert (y ⊆ chars) as Hychars by (by etrans).
  assert (z ⊆ chars) as Hzchars by (by etrans).
  split; [|by etrans].
  exists y, z. rewrite <- (expand_options_agree chars L L'),
    <- (expand_group_agree chars L L'), <- (expand_optionals_agree chars L L'); done.
Qed.

End agreement_round.

Section agreement_engine.

Variable LANGUAGE_UNICODE_ALPHABET : str → option (ascii → bool).
Variable order : gset str → list str.
Hypothesis order_perm : ∀ X, order X ≡ₚ elements X.
Variable chars : list ascii.
Variables L L' : ascii → bool.
Hypothesis L_agree : ∀ a, a ∈ chars → L a = L' a.

(** When a call for an alphabet returns after its first round, so does,
    with the same list, the call for any alphabet that agrees with it on
    the characters of the working set. *)
Lemma returns_after_one_round_agree frames language_code W W' :
  LANGUAGE_UNICODE_ALPHABET (lower language_code) = Some L → W ≠ ∅ →
  (∀ c, c ∈ W → c ⊆ chars) →
  (expansion_round elements L' W).1 = Some W' →
  all_words_only L' (elements W') = Returns true →
  expand_bnf_recursive LANGUAGE_UNICODE_ALPHABET order (S frames) W language_code
  = (Returns (sorted (elements W')), []).
Proof.
  intros HL HW Hchars Hround Hall.
  assert (L'_agree : ∀ a, a ∈ chars → L' a = L a) by (intros a Ha; by rewrite L_agree).
  pose proof (expansion_round_Some elements (λ X, reflexivity _) L' W W' Hround) as [_ HW'].
  assert (∀ x, x ∈ W' ↔ ∃ c, c ∈ W ∧ round_of L c x) as HW'L.
  { intros x. rewrite HW'. split; intros (c & Hc & Hx); exists c; (split; [done|]).
    - by apply (round_of_agree chars L' L L'_agree c x); [apply Hchars|].
    - by apply (round_of_agree chars L L' L_agree c x); [apply Hchars|]. }
  assert ((expansion_round elements L W).1 = Some W') as HroundL.
  { destruct (expansion_round elements L W).1 as [W''|] eqn:E.
    - f_equal. apply (expansion_round_Some elements (λ X, reflexivity _)) in E as [_ E].
      apply set_eq. intros x. by rewrite E, HW'L.
    - apply (expansion_round_None elements (λ X, reflexivity _)) in E
        as (c & y & Hc & Hy & Hv).
      assert ((expansion_round elements L' W).1 = None); [|congruence].
      apply (expansion_round_None elements (λ X, reflexivity _)). exists c, y.
      by rewrite <- (expand_options_agree chars L L') by (done || by apply Hchars). }
  apply (returns_after_one_round LANGUAGE_UNICODE_ALPHABET elements order
           (λ X, reflexivity _) order_perm frames language_code L W W'); try done.
  apply all_words_only_true. rewrite all_words_only_true in Hall.
  rewrite Forall_forall in *. intros x Hx. rewrite <- (Hall x Hx).
  apply (words_only_agree chars); [done|].
  apply elem_of_elements, HW' in Hx as (c & Hc & Hx).
  by apply (round_of_agree chars L' L L'_agree c x); [apply Hchars|].
Qed.

End agreement_engine.

(** C3, what the code returns.  For the notation ["(a|b) [c|d]"] and any
    supported language whose alphabet class holds the four letters and the
    space and none of the grammar punctuation, the call returns six
    sentences under every iteration order, but the two without the optional
    keep the space that stood before it: ["a "] and ["b "], not ["a"] and
    ["b"]. *)
Theorem expand_keeps_space_before_absent_optional
    (LANGUAGE_UNICODE_ALPHABET : str → option (ascii → bool))
    (order : gset str → list str) (frames : nat) (language_code : str)
    (L : ascii → bool) :
  (∀ X, order X ≡ₚ elements X) →
  LANGUAGE_UNICODE_ALPHABET (lower language_code) = Some L →
  (∀ a, a ∈ $"abcd " → L a = true) →
  (∀ a, a ∈ $"()[]|" → L a = false) →
  expand_bnf_recursive LANGUAGE_UNICODE_ALPHABET order (S frames)
    {[ $"(a|b) [c|d]" ]} language_code
  = (Returns [ $"a "; $"a c"; $"a d"; $"b "; $"b c"; $"b d" ], []).
Proof.
  intros order_perm HL Hletters Hpunct.
  rewrite (returns_after_one_round_agree LANGUAGE_UNICODE_ALPHABET order order_perm
             $"(a|b) [c|d]" L english) with
    (W' := {[ $"a "; $"a c"; $"a d"; $"b "; $"b c"; $"b d" ]}).
  - f_equal.
  - intros a Ha.
    repeat (apply elem_of_cons in Ha as [->|Ha]);
      [..|by apply elem_of_nil in Ha];
      first [ rewrite Hletters by (apply (bool_decide_unpack _); vm_compute; exact I)
            | rewrite Hpunct by (apply (bool_decide_unpack _); vm_compute; exact I) ];
      reflexivity.
  - done.
  - intros H. assert ($"(a|b) [c|d]" ∈ (∅ : gset str)) as Hin by (rewrite <- H; set_solver).
    by apply not_elem_of_empty in Hin.
  - by intros c ->%elem_of_singleton.
  - vm_compute. reflexivity.
  - vm_compute. reflexivity.
Qed.

Lemma expand_keeps_space_before_absent_optional_witness :
  expand_bnf_recursive sample_alphabet elements 1 {[ $"(a|b) [c|d]" ]} $"en"
  = (Returns [ $"a "; $"a c"; $"a d"; $"b "; $"b c"; $"b d" ], []).
Proof.
  apply (expand_keeps_space_before_absent_optional sample_alphabet elements 0 $"en" english).
  - intros X. reflexivity.
  - reflexivity.
  - intros a Ha. repeat (apply elem_of_cons in Ha as [->|Ha]);
      [..|by apply elem_of_nil in Ha]; reflexivity.
  - intros a Ha. repeat (apply elem_of_cons in Ha as [->|Ha]);
      [..|by apply elem_of_nil in Ha]; reflexivity.
Defined.

(** * Candidates without punctuation *)

Section plain_candidates.

Variable L : ascii → bool.

Lemma well_nested_plain s : (∀ a, a ∈ s → is_bracket a = false) → well_nested s.
Proof.
  induction s as [|a s IH]; intros H; [constructor|].
  apply wn_other; [apply H; by left|]. apply IH. intros b Hb. apply H. by right.
Qed.

Lemma not_punct_not_bracket a : is_punct a = false → is_bracket a = false.
Proof. unfold is_punct. by intros [? _]%orb_false_iff. Qed.

Lemma split_options_plain s :
  (∀ a, a ∈ s → is_punct a = false) → split_options s = [strip s].
Proof.
  intros H. rewrite split_options_unfold.
  assert (filter (λ c, is_bracket c = false) s = s) as ->.
  { clear -H. induction s as [|a s IH]; [done|].
    rewrite filter_cons, decide_True.
    - f_equal. apply IH. intros b Hb. apply H. by right.
    - apply not_punct_not_bracket, H. by left. }
  rewrite split_without_sep; [done|].
  intros Hin%H. done.
Qed.

(** No span is found in a string that lacks the opening delimiter. *)
Lemma search_delimited_none o cl s :
  o ∉ s → search (Seq (Lit o) (Seq (alternation L) (Lit cl))) s = None.
Proof.
  intros Ho. destruct (search _ s) as [span|] eqn:E; [|done].
  apply search_delimited in E as (p & q & mid & -> & -> & _).
  destruct Ho. rewrite elem_of_app. right. by left.
Qed.

(** A round gives back a word-only candidate without punctuation trimmed
    of the white space around it, and nothing else. *)
Lemma round_of_plain c x :
  c ≠ [] → Forall (λ a, L a = true) c → (∀ a, a ∈ c → is_punct a = false) →
  round_of L c x ↔ x = strip c.
Proof.
  intros Hne HL Hplain.
  assert (expand_options L ∅ c = {[strip c]}) as Hoptions.
  { unfold expand_options. rewrite (fullmatch_complete _ c).
    - rewrite decide_False by done. rewrite split_options_plain by done. set_solver.
    - apply matches_alternation. eapply Forall_impl; [exact HL|]. by left. }
  assert (∀ o, is_punct o = true → o ∉ strip c) as Hfree.
  { intros o Ho Hin%strip_subseteq%Hplain. congruence. }
  assert (expand_group L ∅ (strip c) = {[strip c]}) as Hgroup.
  { unfold expand_group, GROUPS_REGEX. rewrite search_delimited_none; [set_solver|].
    by apply Hfree. }
  assert (expand_optionals L ∅ (strip c) = {[strip c]}) as Hoptionals.
  { unfold expand_optionals, OPTIONALS_REGEX. rewrite search_delimited_none; [set_solver|].
    by apply Hfree. }
  unfold round_of. rewrite Hoptions. split.
  - intros (y & z & ->%elem_of_singleton & Hz & Hx).
    rewrite Hgroup in Hz. apply elem_of_singleton in Hz as ->.
    rewrite Hoptionals in Hx. by apply elem_of_singleton in Hx.
  - intros ->. exists (strip c), (strip c).
    rewrite Hgroup, Hoptionals. by rewrite !elem_of_singleton.
Qed.

End plain_candidates.

Section word_only_input.

Variable LANGUAGE_UNICODE_ALPHABET : str → option (ascii → bool).
Variable order : gset str → list str.
Hypothesis order_perm : ∀ X, order X ≡ₚ elements X.

(** C6, as the code has it.  On a non-empty set of word-only strings that
    hold no grammar punctuation and are not all white space, the call
    returns the sorted list, without duplicates, of the strings trimmed of
    leading and trailing white space; what is between is unchanged. *)
Theorem expand_word_only_set (frames : nat) (language_code : str)
    (L : ascii → bool) (W : gset str) :
  LANGUAGE_UNICODE_ALPHABET (lower language_code) = Some L → W ≠ ∅ →
  (∀ s, s ∈ W →
     (is_words_only LANGUAGE_UNICODE_ALPHABET s language_code).1 = Returns true ∧
     (∀ a, a ∈ s → is_punct a = false) ∧ strip s ≠ []) →
  expand_bnf_recursive LANGUAGE_UNICODE_ALPHABET order (S frames) W language_code
  = (Returns (sorted (elements (set_map strip W : gset str))), []).
Proof.
  intros HL HW Hin.
  assert (∀ s, s ∈ W → s ≠ [] ∧ Forall (λ a, L a = true) s ∧
            (∀ a, a ∈ s → is_punct a = false) ∧ strip s ≠ []) as Hin'.
  { intros s Hs. destruct (Hin s Hs) as (Hw & Hp & Hne).
    rewrite (is_words_only_supported _ _ _ L) in Hw by done.
    apply words_only_true in Hw as [? ?]. done. }
  assert (∀ x, (∃ c, c ∈ W ∧ round_of L c x) ↔ x ∈ (set_map strip W : gset str))
    as Hround_of.
  { intros x. rewrite elem_of_map. split.
    - intros (c & Hc & Hx). destruct (Hin' c Hc) as (? & ? & ? & ?).
      apply round_of_plain in Hx; [|done..]. by exists c.
    - intros (c & -> & Hc). destruct (Hin' c Hc) as (? & ? & ? & ?).
      exists c. split; [done|]. by apply round_of_plain. }
  assert ((expansion_round order L W).1 = Some (set_map strip W)) as Hround.
  { destruct (expansion_round order L W).1 as [W'|] eqn:E.
    - f_equal. apply (expansion_round_Some order order_perm) in E as [_ E].
      apply set_eq. intros x. by rewrite E, Hround_of.
    - apply (expansion_round_None order order_perm) in E as (c & y & Hc & Hy & Hv).
      destruct (Hin' c Hc) as (Hne & Hall & Hp & Hs).
      assert (well_nested y) as Hwn%validate_bnf_groups_well_nested; [|congruence].
      apply well_nested_plain. intros a Ha.
      apply expand_options_elem in Hy as [Hsub _].
      by apply not_punct_not_bracket, Hp, Hsub. }
  rewrite (returns_after_one_round LANGUAGE_UNICODE_ALPHABET order order order_perm order_perm
             frames language_code L W (set_map strip W)); [|done..|].
  - do 2 f_equal. apply sorted_order, order_perm.
  - apply all_words_only_true, Forall_forall.
    intros x Hx%(elem_of_order order order_perm). apply elem_of_map in Hx as (c & -> & Hc).
    destruct (Hin' c Hc) as (Hne & Hall & Hp & Hs).
    apply words_only_true. split; [done|].
    rewrite Forall_forall in *. intros a Ha%strip_subseteq. by apply Hall.
Qed.

End word_only_input.

Lemma expand_word_only_set_witness :
  expand_bnf_recursive sample_alphabet elements 1 {[ $" b a "; $"a" ]} $"en"
  = (Returns (sorted (elements (set_map strip ({[ $" b a "; $"a" ]} : gset str) : gset str))), []).
Proof.
  apply (expand_word_only_set sample_alphabet elements (λ X, reflexivity _) 0 $"en" english).
  - reflexivity.
  - intros H. assert ($"a" ∈ (∅ : gset str)) as Hin by (rewrite <- H; set_solver).
    by apply not_elem_of_empty in Hin.
  - intros s Hs. apply elem_of_union in Hs as [Hs|Hs]; apply elem_of_singleton in Hs; subst s.
    + split; [reflexivity|]. split; [|by vm_compute].
      apply Forall_forall. by repeat constructor.
    + split; [reflexivity|]. split; [|by vm_compute].
      apply Forall_forall. by repeat constructor.
Defined.

(** C6, the counterexample.  [" a"] is word-only for the sample language,
    yet the call on it returns ["a"]: the leading space is gone. *)
Lemma expand_trims_word_only_input :
  (is_words_only sample_alphabet $" a" $"en").1 = Returns true ∧
  expand_bnf_recursive sample_alphabet elements 2 {[ $" a" ]} $"en" = (Returns [ $"a" ], []) ∧
  [ $"a" ] ≠ sorted (elements ({[ $" a" ]} : gset str)).
Proof. split; [|split]; by vm_compute. Qed.

(** * Valid candidates stay valid *)

Section validity.

Lemma validate_loop_balanced bnf s : ∀ i stk,
  (validate_loop bnf s i stk).1 = balanced s (map fst stk).
Proof.
  induction s as [|c s IH]; intros i stk; [by destruct stk|].
  cbn [validate_loop balanced]. destruct (is_opening c); [apply (IH _ ((c, i) :: stk))|].
  destruct (Ascii.eqb c ")").
  { destruct stk as [|[top j] below]; [done|]. simpl.
    destruct (Ascii.eqb top "("); [apply IH|].
    destruct (Ascii.eqb top "["); [done|]. apply (IH _ ((top, j) :: below)). }
  destruct (Ascii.eqb c "]"); [|apply IH].
  destruct stk as [|[top j] below]; [done|]. simpl.
  destruct (Ascii.eqb top "["); [apply IH|].
  destruct (Ascii.eqb top "("); [done|]. apply (IH _ ((top, j) :: below)).
Qed.

Lemma well_nested_balanced s : well_nested s ↔ balanced s [] = true.
Proof.
  rewrite <- validate_bnf_groups_well_nested. unfold validate_bnf_groups.
  by rewrite validate_loop_balanced.
Qed.

Lemma balanced_app_congr r1 r2 :
  (∀ stk, balanced r1 stk = balanced r2 stk) →
  ∀ u stk, balanced (u ++ r1) stk = balanced (u ++ r2) stk.
Proof.
  intros Hr. induction u as [|c u IH]; intros stk; [apply Hr|].
  simpl. destruct (is_opening c); [apply IH|].
  destruct (Ascii.eqb c ")").
  { destruct stk as [|top below]; [done|].
    destruct (Ascii.eqb top "("); [apply IH|]. destruct (Ascii.eqb top "["); [done|apply IH]. }
  destruct (Ascii.eqb c "]"); [|apply IH].
  destruct stk as [|top below]; [done|].
  destruct (Ascii.eqb top "["); [apply IH|]. destruct (Ascii.eqb top "("); [done|apply IH].
Qed.

Lemma balanced_skip m r stk :
  (∀ a, a ∈ m → is_bracket a = false) → balanced (m ++ r) stk = balanced r stk.
Proof.
  induction m as [|c m IH]; intros Hm; [done|].
  assert (is_bracket c = false) as Hc by (apply Hm; by left).
  unfold is_bracket, is_closing in Hc. apply orb_false_iff in Hc as [Ho [Hc1 Hc2]%orb_false_iff].
  simpl. rewrite Ho, Hc1, Hc2. apply IH. intros a Ha. apply Hm. by right.
Qed.

Lemma balanced_span o mid r stk :
  is_opening o = true → (∀ a, a ∈ mid → is_bracket a = false) →
  balanced ((o :: mid ++ [closer_of o]) ++ r) stk = balanced r stk.
Proof.
  intros Ho Hmid. cbn [app balanced]. rewrite Ho, <- app_assoc, balanced_skip by done.
  apply is_opening_cases in Ho as [-> | ->]; reflexivity.
Qed.

(** Putting a string without brackets in the place of a span whose only
    brackets are its two delimiters keeps a string well nested. *)
Lemma well_nested_substituted p q o mid option :
  is_opening o = true → (∀ a, a ∈ mid → is_bracket a = false) →
  (∀ a, a ∈ option → is_bracket a = false) →
  well_nested (p ++ (o :: mid ++ [closer_of o]) ++ q) → well_nested (p ++ option ++ q).
Proof.
  intros Ho Hmid Hopt. rewrite !well_nested_balanced. intros <-.
  apply balanced_app_congr. intros stk.
  by rewrite balanced_span, balanced_skip.
Qed.

Lemma balanced_replace_double_space s :
  ∀ stk, balanced (replace_double_space s) stk = balanced s stk.
Proof.
  apply (replace_double_space_ind (λ r s, ∀ stk, balanced r stk = balanced s stk)); try done.
  intros c s' r H stk. simpl. destruct (is_opening c); [apply H|].
  destruct (Ascii.eqb c ")").
  { destruct stk as [|top below]; [done|].
    destruct (Ascii.eqb top "("); [apply H|]. destruct (Ascii.eqb top "["); [done|apply H]. }
  destruct (Ascii.eqb c "]"); [|apply H].
  destruct stk as [|top below]; [done|].
  destruct (Ascii.eqb top "["); [apply H|]. destruct (Ascii.eqb top "("); [done|apply H].
Qed.

Lemma well_nested_replace_double_space s :
  well_nested s → well_nested (replace_double_space s).
Proof. rewrite !well_nested_balanced. by rewrite balanced_replace_double_space. Qed.

End validity.

(** * Candidates without a character of the alphabet *)

Section blank_candidates.

Variable LANGUAGE_UNICODE_ALPHABET : str → option (ascii → bool).
Variable order : gset str → list str.
Hypothesis order_perm : ∀ X, order X ≡ₚ elements X.
Variable L : ascii → bool.
Hypothesis L_without_brackets : alphabet_without_brackets L.

Lemma elem_of_passed_on (x y : str) : x ∈ (∅ : gset str) ∪ {[y]} → x = y.
Proof. rewrite elem_of_union, elem_of_singleton. by intros [?|?]. Qed.

Lemma replace_once_well_nested o y span option :
  is_opening o = true →
  search (Seq (Lit o) (Seq (alternation L) (Lit (closer_of o)))) y = Some span →
  well_nested y → (∀ a, a ∈ option → is_bracket a = false) →
  well_nested (replace_once y span option).
Proof.
  intros Ho (p0 & q0 & mid & Hy & Hspan & Hmid)%search_delimited Hwn Hopt.
  destruct (replace_once_spec span option y) as [(p & q & -> & -> & _)|[_ Hnone]];
    [|by apply Hnone in Hy].
  subst span. apply (well_nested_substituted p q o mid); try done.
  intros a Ha. rewrite Forall_forall in Hmid. destruct (Hmid a Ha) as [HLa| ->]; [|done].
  destruct (is_bracket a) eqn:E; [|done]. apply L_without_brackets in E. congruence.
Qed.

Lemma split_options_no_bracket span option a :
  option ∈ split_options span → a ∈ option → is_bracket a = false.
Proof.
  intros [Hzero _]%split_options_elem Ha. rewrite punct_count_zero in Hzero.
  by apply not_punct_not_bracket, Hzero.
Qed.

Lemma expand_group_well_nested y z :
  well_nested y → z ∈ expand_group L ∅ y → well_nested z.
Proof.
  intros Hwn. unfold expand_group.
  destruct (search (GROUPS_REGEX L) y) as [span|] eqn:Hsearch;
    [|by intros ->%elem_of_passed_on].
  destruct (decide (span = [])); [by intros ->%elem_of_passed_on|].
  rewrite elem_of_union. intros [H|H]; [done|].
  apply elem_of_get_potential_options in H as (option & Hopt & ->).
  apply (replace_once_well_nested "("); try done.
  intros a. by apply (split_options_no_bracket span).
Qed.

Lemma expand_optionals_well_nested y z :
  well_nested y → z ∈ expand_optionals L ∅ y → well_nested z.
Proof.
  intros Hwn. unfold expand_optionals.
  destruct (search (OPTIONALS_REGEX L) y) as [span|] eqn:Hsearch;
    [|by intros ->%elem_of_passed_on].
  destruct (decide (span = [])); [by intros ->%elem_of_passed_on|].
  cbv zeta. rewrite !elem_of_union, elem_of_singleton. intros [[H| ->]|H]; [done| |].
  - apply well_nested_replace_double_space, (replace_once_well_nested "["); try done.
    by intros a Ha%elem_of_nil.
  - apply elem_of_get_potential_options in H as (option & Hopt & ->).
    apply (replace_once_well_nested "["); try done.
    intros a. by apply (split_options_no_bracket span).
Qed.

(** Whatever comes out of a round that did not give up is well nested. *)
Lemma expansion_round_well_nested W W' :
  (expansion_round order L W).1 = Some W' → ∀ x, x ∈ W' → well_nested x.
Proof.
  intros Hround x Hx.
  pose proof (expansion_round_Some order order_perm L W W' Hround) as [_ HW'].
  apply HW' in Hx as (c & Hc & y & z & Hy & Hz & Hx).
  apply (expand_optionals_well_nested z); [|done].
  apply (expand_group_well_nested y); [|done].
  apply validate_bnf_groups_well_nested.
  destruct (validate_bnf_groups y).1 eqn:Hv; [done|].
  assert ((expansion_round order L W).1 = None); [|congruence].
  apply (expansion_round_None order order_perm). by exists c, y.
Qed.

(** A round on well-nested candidates does not give up. *)
Lemma expansion_round_total W :
  (∀ c, c ∈ W → well_nested c) → (expansion_round order L W).1 ≠ None.
Proof.
  intros HW (c & y & Hc & Hy & Hv)%(expansion_round_None order order_perm).
  assert (well_nested y) as Hwn%validate_bnf_groups_well_nested; [|congruence].
  apply expand_options_elem in Hy as [_ [->|Hzero]]; [by apply HW|].
  apply well_nested_plain. intros a Ha. rewrite punct_count_zero in Hzero.
  by apply not_punct_not_bracket, Hzero.
Qed.

(** A candidate without a character of the alphabet leaves one behind. *)
Lemma blank_candidate_persists W W' c :
  (expansion_round order L W).1 = Some W' →
  c ∈ W → (∀ a, a ∈ c → L a = false) →
  ∃ c', c' ∈ W' ∧ ∀ a, a ∈ c' → L a = false.
Proof.
  intros Hround Hc Hblank.
  pose proof (expansion_round_Some order order_perm L W W' Hround) as [_ HW'].
  destruct (set_choose_L _ (expand_options_nonempty L c)) as [y Hy].
  destruct (set_choose_L _ (expand_group_nonempty L y)) as [z Hz].
  destruct (set_choose_L _ (expand_optionals_nonempty L z)) as [x Hx].
  exists x. split; [apply HW'; exists c; split; [done|]; by exists y, z|].
  apply expand_options_elem in Hy as [Hyc _].
  apply expand_group_elem in Hz as [Hzy _].
  apply expand_optionals_elem in Hx as [Hxz _].
  intros a Ha. by apply Hblank, Hyc, Hzy, Hxz.
Qed.

Lemma all_words_only_blank l c :
  c ∈ l → (∀ a, a ∈ c → L a = false) → all_words_only L l ≠ Returns true.
Proof.
  intros Hc Hblank Hall. rewrite all_words_only_true, Forall_forall in Hall.
  specialize (Hall c Hc).
  assert (words_only L c = Raises); [|congruence].
  apply words_only_raises. by apply Forall_forall.
Qed.

Lemma all_words_only_raises l c :
  c ∈ l → words_only L c = Raises →
  (∀ x, x ∈ l → x ≠ c → words_only L x = Returns true) →
  all_words_only L l = Raises.
Proof.
  induction l as [|s l IH]; intros Hc Hraises Hothers; [by apply elem_of_nil in Hc|].
  simpl. destruct (decide (s = c)) as [->|Hne]; [by rewrite Hraises|].
  rewrite (Hothers s) by (done || by left).
  apply IH; [|done|].
  - by apply elem_of_cons in Hc as [->|?].
  - intros x Hx. apply Hothers. by right.
Qed.

(** Once the working set is well nested and holds a candidate without a
    character of the alphabet, no call on it returns a list. *)
Lemma never_returns language_code :
  LANGUAGE_UNICODE_ALPHABET (lower language_code) = Some L →
  ∀ frames W c l,
  (∀ s, s ∈ W → well_nested s) → c ∈ W → (∀ a, a ∈ c → L a = false) →
  (expand_bnf_recursive LANGUAGE_UNICODE_ALPHABET order frames W language_code).1
  ≠ Returns l.
Proof.
  intros HL. induction frames as [|frames IH]; intros W c l Hwn Hc Hblank; [done|].
  rewrite (expand_bnf_recursive_unfold _ _ _ _ _ L); [|done|set_solver]. cbv zeta.
  destruct (expansion_round order L W).1 as [W'|] eqn:Hround;
    [|by apply expansion_round_total in Hround].
  destruct (blank_candidate_persists W W' c Hround Hc Hblank) as (c' & Hc' & Hblank').
  pose proof (all_words_only_blank (order W') c') as Hall.
  destruct (all_words_only L (order W')) as [[]| |]; simpl; try done.
  - destruct Hall; [by apply (elem_of_order order order_perm)|done..].
  - apply (IH W' c'); [|done..]. by apply (expansion_round_well_nested W).
Qed.

End blank_candidates.

Lemma is_bracket_cases a :
  is_bracket a = true → a = "(" ∨ a = "[" ∨ a = ")" ∨ a = "]".
Proof.
  unfold is_bracket, is_opening, is_closing.
  rewrite !orb_true_iff, !Ascii.eqb_eq. tauto.
Qed.

Lemma english_without_brackets : alphabet_without_brackets english.
Proof. intros a [->|[->|[->| ->]]]%is_bracket_cases; reflexivity. Qed.

Section blank_candidate_claim.

Variable LANGUAGE_UNICODE_ALPHABET : str → option (ascii → bool).
Variable order : gset str → list str.
Hypothesis order_perm : ∀ X, order X ≡ₚ elements X.

(** C9. Let a round produce a candidate without any character of the
    alphabet, such as the empty string that deleting the optional of
    ["[a]"] leaves.  Then [is_words_only] raises on that candidate.  The
    call raises in that very round exactly when, in the order in which the
    candidates of the round are visited, the first one that is not
    word-only has no character of the alphabet; so it does when the other
    candidates are word-only.  Otherwise the call ends as the nested call
    on the candidates of the round does.  For an alphabet that holds no
    bracket the call never returns a list, however many frames it is
    given, and it raises within one frame more than the largest
    punctuation count when the working set is written in the notation. *)
Theorem candidate_without_alphabet_character_raises
    (language_code : str) (L : ascii → bool) (W W' : gset str) (c : str) :
  LANGUAGE_UNICODE_ALPHABET (lower language_code) = Some L → W ≠ ∅ →
  (expansion_round order L W).1 = Some W' →
  c ∈ W' → (∀ a, a ∈ c → L a = false) →
  (is_words_only LANGUAGE_UNICODE_ALPHABET c language_code).1 = Raises ∧
  ((∀ frames,
      (expand_bnf_recursive LANGUAGE_UNICODE_ALPHABET order (S frames) W language_code).1
      = Raises) ↔
   blank_met_first LANGUAGE_UNICODE_ALPHABET L language_code (order W')) ∧
  (¬ blank_met_first LANGUAGE_UNICODE_ALPHABET L language_code (order W') →
   ∀ frames,
     (expand_bnf_recursive LANGUAGE_UNICODE_ALPHABET order (S frames) W language_code).1
     = (expand_bnf_recursive LANGUAGE_UNICODE_ALPHABET order frames W' language_code).1) ∧
  ((∀ x, x ∈ W' → x ≠ c →
      (is_words_only LANGUAGE_UNICODE_ALPHABET x language_code).1 = Returns true) →
   ∀ frames,
     (expand_bnf_recursive LANGUAGE_UNICODE_ALPHABET order (S frames) W language_code).1
     = Raises) ∧
  (alphabet_without_brackets L →
   (∀ frames l,
      (expand_bnf_recursive LANGUAGE_UNICODE_ALPHABET order frames W language_code).1
      ≠ Returns l) ∧
   ((∀ s, s ∈ W → in_notation L s) →
    ∀ extra,
      (expand_bnf_recursive LANGUAGE_UNICODE_ALPHABET order
         (S (max_punct_count W) + extra) W language_code).1 = Raises)).
Proof.
  intros HL HW Hround Hc Hblank.
  assert (words_only L c = Raises) as Hraises
    by (by apply words_only_raises, Forall_forall).
  assert (∀ frames,
    (expand_bnf_recursive LANGUAGE_UNICODE_ALPHABET order (S frames) W language_code).1
    = match all_words_only L (order W') with
      | Returns true => Returns (sorted (order W'))
      | Returns false =>
          (expand_bnf_recursive LANGUAGE_UNICODE_ALPHABET order frames W' language_code).1
      | Raises => Raises
      | Overflows => Overflows
      end) as Hcall.
  { intros frames. rewrite (expand_bnf_recursive_unfold _ _ _ _ _ L) by done.
    cbv zeta. rewrite Hround. by destruct (all_words_only L (order W')) as [[]| |]. }
  assert (all_words_only L (order W') = Raises ↔
          blank_met_first LANGUAGE_UNICODE_ALPHABET L language_code (order W')) as Hfirst.
  { rewrite all_words_only_raises_first. unfold blank_met_first.
    split; intros (before & b & after & Horder & Hbefore & Hb);
      exists before, b, after; (split; [done|]); split.
    - intros x Hx. rewrite (is_words_only_supported _ _ _ L) by done. by apply Hbefore.
    - intros a Ha. apply words_only_raises in Hb. rewrite Forall_forall in Hb. auto.
    - intros x Hx. specialize (Hbefore x Hx).
      by rewrite (is_words_only_supported _ _ _ L) in Hbefore.
    - by apply words_only_raises, Forall_forall. }
  split; [by rewrite (is_words_only_supported _ _ _ L)|]. split; [|split; [|split]].
  - rewrite <- Hfirst. split.
    + intros H. specialize (H 0). rewrite Hcall in H.
      by destruct (all_words_only L (order W')) as [[]| |].
    + intros H frames. by rewrite Hcall, H.
  - intros Hnot frames. rewrite Hcall.
    pose proof (all_words_only_blank L (order W') c) as Hall.
    pose proof (all_words_only_no_overflow L (order W')) as Hover.
    destruct (all_words_only L (order W')) as [[]| |];
      [|done|destruct Hnot; by apply Hfirst|done].
    destruct Hall; [by apply (elem_of_order order order_perm)|done..].
  - intros Hothers frames. rewrite Hcall.
    rewrite (all_words_only_raises L (order W') c); [done| |done|].
    + by apply (elem_of_order order order_perm).
    + intros x Hx%(elem_of_order order order_perm) Hne.
      specialize (Hothers x Hx Hne).
      by rewrite (is_words_only_supported _ _ _ L) in Hothers.
  - intros HLb.
    assert (∀ frames l,
      (expand_bnf_recursive LANGUAGE_UNICODE_ALPHABET order frames W language_code).1
      ≠ Returns l) as Hnever.
    { intros [|frames] l; [done|]. rewrite Hcall.
      pose proof (all_words_only_blank L (order W') c) as Hall.
      destruct (all_words_only L (order W')) as [[]| |]; simpl; try done.
      - destruct Hall; [by apply (elem_of_order order order_perm)|done..].
      - apply (never_returns LANGUAGE_UNICODE_ALPHABET order order_perm L HLb
                 language_code HL frames W' c); [|done..].
        by apply (expansion_round_well_nested order order_perm L HLb W). }
    split; [done|]. intros Hnot extra.
    pose proof (expand_bnf_recursive_bounded LANGUAGE_UNICODE_ALPHABET order order_perm
                  language_code L HL (max_punct_count W) W extra Hnot
                  (max_punct_count_bound W)) as Hends.
    specialize (Hnever (S (max_punct_count W) + extra)).
    destruct (expand_bnf_recursive _ _ _ _ _).1 as [l| |]; [by destruct (Hnever l)|done..].
Qed.

End blank_candidate_claim.

Lemma candidate_without_alphabet_character_raises_witness :
  (is_words_only sample_alphabet [] $"en").1 = Raises ∧
  (∀ frames,
     (expand_bnf_recursive sample_alphabet elements (S frames) {[ $"[a]" ]} $"en").1
     = Raises) ∧
  (∀ frames l,
     (expand_bnf_recursive sample_alphabet elements frames {[ $"[a]" ]} $"en").1
     ≠ Returns l).
Proof.
  destruct (candidate_without_alphabet_character_raises sample_alphabet elements
              (λ X, reflexivity _) $"en" english {[ $"[a]" ]} {[ []; $"a" ]} [])
    as (Hcheck & _ & _ & Hround & Hlater).
  - reflexivity.
  - intros H. assert ($"[a]" ∈ (∅ : gset str)) as Hin by (rewrite <- H; set_solver).
    by apply not_elem_of_empty in Hin.
  - vm_compute. reflexivity.
  - apply (bool_decide_unpack _). vm_compute. exact I.
  - intros a Ha. by apply elem_of_nil in Ha.
  - split; [exact Hcheck|]. split.
    + apply Hround. intros x Hx Hne.
      apply elem_of_union in Hx as [Hx|Hx]; apply elem_of_singleton in Hx; subst x;
        [done|reflexivity].
    + exact (proj1 (Hlater english_without_brackets)).
Defined.

(** C9, the counterexample.  With the sample alphabet, the round on
    ["[a]"] and ["x.y"] produces the empty string, on which the word-only
    check raises.  When the candidates are visited with ["x.y"] first, the
    check of the round answers [False] before it comes to the empty
    string, the round gives its own candidates back, and no number of
    frames lets the call end: it never raises.  Visited in the opposite
    order, the same call raises in its first round. *)
Lemma blank_candidate_left_unchecked :
  (expansion_round elements english {[ $"[a]"; $"x.y" ]}).1
  = Some {[ []; $"a"; $"x.y" ]} ∧
  (is_words_only sample_alphabet [] $"en").1 = Raises ∧
  (∀ frames,
     (expand_bnf_recursive sample_alphabet elements frames {[ $"[a]"; $"x.y" ]} $"en").1
     = Overflows) ∧
  (∀ frames,
     (expand_bnf_recursive sample_alphabet (λ X, reverse (elements X)) (S frames)
        {[ $"[a]"; $"x.y" ]} $"en").1 = Raises).
Proof.
  assert (∀ W : gset str, $"x.y" ∈ W → W ≠ ∅) as Hne.
  { intros W Hin ->. by apply not_elem_of_empty in Hin. }
  assert ((expansion_round elements english {[ $"[a]"; $"x.y" ]}).1
          = Some {[ []; $"a"; $"x.y" ]}) as Hfirst by (vm_compute; reflexivity).
  assert ((expansion_round elements english {[ []; $"a"; $"x.y" ]}).1
          = Some {[ []; $"a"; $"x.y" ]}) as Hnext by (vm_compute; reflexivity).
  assert (all_words_only english (elements ({[ []; $"a"; $"x.y" ]} : gset str))
          = Returns false) as Hcheck by (vm_compute; reflexivity).
  split; [done|]. split; [reflexivity|]. split.
  - assert (∀ frames,
      (expand_bnf_recursive sample_alphabet elements frames {[ []; $"a"; $"x.y" ]} $"en").1
      = Overflows) as Hloop.
    { induction frames as [|frames IH]; [done|].
      rewrite (expand_bnf_recursive_unfold _ _ _ _ _ english); [|done|apply Hne; set_solver].
      cbv zeta. rewrite Hnext, Hcheck. exact IH. }
    intros [|frames]; [done|].
    rewrite (expand_bnf_recursive_unfold _ _ _ _ _ english); [|done|apply Hne; set_solver].
    cbv zeta. rewrite Hfirst, Hcheck. apply Hloop.
  - intros frames.
    rewrite (expand_bnf_recursive_unfold _ _ _ _ _ english); [|done|apply Hne; set_solver].
    cbv zeta.
    assert ((expansion_round (λ X, reverse (elements X)) english {[ $"[a]"; $"x.y" ]}).1
            = Some {[ []; $"a"; $"x.y" ]}) as -> by (vm_compute; reflexivity).
    assert (all_words_only english (reverse (elements ({[ []; $"a"; $"x.y" ]} : gset str)))
            = Raises) as -> by (vm_compute; reflexivity).
    done.
Qed.

Example expand_optional_alone_raises :
  expand_bnf_recursive sample_alphabet elements 5 {[ $"[a]" ]} $"en" = (Raises, []).
Proof. vm_compute. reflexivity. Qed.

(** * More on the validator *)

Section validator_reports.

Lemma missing_closing_points_at bnf entry :
  bnf !! entry.2 = Some entry.1 → is_opening entry.1 = true →
  Forall (record_points_at bnf) (missing_closing entry).
Proof.
  destruct entry as [opener index]. simpl. intros Hat Ho. unfold missing_closing. simpl.
  apply is_opening_cases in Ho as [-> | ->]; simpl; by repeat constructor.
Qed.

Lemma validate_loop_points_at bnf : ∀ rest pre stk,
  bnf = pre ++ rest →
  Forall (λ e, bnf !! e.2 = Some e.1 ∧ is_opening e.1 = true ∧ e.2 < length pre) stk →
  Forall (record_points_at bnf) (validate_loop bnf rest (length pre) stk).2.
Proof.
  induction rest as [|c rest IH]; intros pre stk Hbnf Hstk.
  - destruct stk as [|e stk]; [constructor|]. cbn [validate_loop snd].
    apply Forall_concat, Forall_map, Forall_rev.
    eapply Forall_impl; [exact Hstk|]. intros e' (Hat & Ho & _).
    by apply missing_closing_points_at.
  - assert (bnf !! length pre = Some c) as Hc by (rewrite Hbnf; apply list_lookup_middle; done).
    assert (bnf = (pre ++ [c]) ++ rest) as Hbnf' by (by rewrite <- app_assoc).
    assert (S (length pre) = length (pre ++ [c])) as Hlen
      by (rewrite length_app; simpl; lia).
    assert (Forall (λ e, bnf !! e.2 = Some e.1 ∧ is_opening e.1 = true ∧
                         e.2 < length (pre ++ [c])) stk) as Hstk'.
    { eapply Forall_impl; [exact Hstk|]. intros e (? & ? & ?). rewrite <- Hlen. auto. }
    cbn [validate_loop]. rewrite Hlen. destruct (is_opening c) eqn:Ho.
    { apply IH; [done|]. constructor; [|done]. simpl. rewrite <- Hlen. auto. }
    destruct (Ascii.eqb c ")") eqn:Hc1.
    { apply Ascii.eqb_eq in Hc1 as ->. rewrite <- Hlen.
      destruct stk as [|[top j] below]; [by repeat constructor|].
      apply Forall_cons in Hstk as [(Hat & Htop & Hj) Hbelow]. simpl in *.
      apply Forall_cons in Hstk' as [_ Hbelow'].
      apply is_opening_cases in Htop as [-> | ->]; cbn.
      - rewrite Hlen. by apply IH.
      - repeat constructor; try done. by exists j. }
    destruct (Ascii.eqb c "]") eqn:Hc2; [|by apply IH].
    apply Ascii.eqb_eq in Hc2 as ->. rewrite <- Hlen.
    destruct stk as [|[top j] below]; [by repeat constructor|].
    apply Forall_cons in Hstk as [(Hat & Htop & Hj) Hbelow]. simpl in *.
    apply Forall_cons in Hstk' as [_ Hbelow'].
    apply is_opening_cases in Htop as [-> | ->]; cbn.
    + repeat constructor; try done. by exists j.
    + rewrite Hlen. by apply IH.
Qed.

Lemma balanced_brackets_only s : ∀ stk,
  balanced (filter (λ a, is_bracket a = true) s) stk = balanced s stk.
Proof.
  induction s as [|c s IH]; intros stk; [done|].
  rewrite filter_cons. destruct (is_bracket c) eqn:Hb.
  - rewrite decide_True by done. simpl. destruct (is_opening c); [apply IH|].
    destruct (Ascii.eqb c ")").
    { destruct stk as [|top below]; [done|].
      destruct (Ascii.eqb top "("); [apply IH|]. destruct (Ascii.eqb top "["); [done|apply IH]. }
    destruct (Ascii.eqb c "]"); [|apply IH].
    destruct stk as [|top below]; [done|].
    destruct (Ascii.eqb top "["); [apply IH|]. destruct (Ascii.eqb top "("); [done|apply IH].
  - rewrite decide_False by congruence. rewrite IH.
    symmetry. apply (balanced_skip [c] s). by intros a ->%list_elem_of_singleton.
Qed.

Lemma validate_bnf_groups_balanced bnf : (validate_bnf_groups bnf).1 = balanced bnf [].
Proof. unfold validate_bnf_groups. by rewrite validate_loop_balanced. Qed.

Lemma balanced_well_nested m stk : well_nested m → ∀ r, balanced (m ++ r) stk = balanced r stk.
Proof.
  intros Hm r.
  pose proof (validate_loop_well_nested [] m Hm r 0 (map (λ o, (o, 0)) stk)) as H.
  apply (f_equal fst) in H. rewrite !validate_loop_balanced in H.
  by rewrite map_map, map_id in H.
Qed.

End validator_reports.

(** X5. Every warning of [validate_bnf_groups] names a real position of the
    string: the index of a closer warning holds that closer, the opener a
    mismatch names stands earlier in the string and is of the other kind,
    and the index of a missing-closing warning holds the opener that was
    left open. *)
Theorem validate_bnf_groups_reports_positions (bnf : str) :
  Forall (record_points_at bnf) (validate_bnf_groups bnf).2.
Proof.
  apply (validate_loop_points_at bnf bnf [] []); [done|constructor].
Qed.

(** X6. A valid stretch can be cut out of a string, wherever it stands,
    without changing the verdict of [validate_bnf_groups]. *)
Theorem validate_bnf_groups_cut (p m q : str) :
  (validate_bnf_groups m).1 = true →
  (validate_bnf_groups (p ++ m ++ q)).1 = (validate_bnf_groups (p ++ q)).1.
Proof.
  intros Hm%validate_bnf_groups_well_nested. rewrite !validate_bnf_groups_balanced.
  apply balanced_app_congr. intros stk. by apply balanced_well_nested.
Qed.

Lemma validate_bnf_groups_cut_witness :
  (validate_bnf_groups ($"a (" ++ $"[b] (c)" ++ $" d")).1
  = (validate_bnf_groups ($"a (" ++ $" d")).1.
Proof. apply (validate_bnf_groups_cut $"a (" $"[b] (c)" $" d"). reflexivity. Defined.

(** X7. The verdict of [validate_bnf_groups] only depends on the brackets
    of the string, in their order: every other character can be dropped. *)
Theorem validate_bnf_groups_brackets_only (bnf : str) :
  (validate_bnf_groups (filter (λ a, is_bracket a = true) bnf)).1
  = (validate_bnf_groups bnf).1.
Proof. rewrite !validate_bnf_groups_balanced. apply balanced_brackets_only. Qed.

(** * More on the splitter and the substitution step *)

(** X8. [split_options] gives one alternative more than the string has
    pipes, so at least one.  An alternative holds none of the five
    punctuation characters and no character that is not in the string, and
    it neither starts nor ends with white space. *)
Theorem split_options_alternatives_clean (string : str) :
  length (split_options string) = S (length (filter (λ a, a = "|") string)) ∧
  ∀ option, option ∈ split_options string →
    (∀ a, a ∈ option → is_punct a = false) ∧ option ⊆ string ∧
    (∀ c, head option = Some c → is_space c = false) ∧
    (∀ c, last option = Some c → is_space c = false).
Proof.
  split.
  - rewrite split_options_unfold.
    rewrite length_map, length_split. f_equal. f_equal.
    rewrite list_filter_filter. apply list_filter_iff. intros a. split; [by intros [? ?]|].
    by intros ->.
  - intros option Hopt. pose proof (split_options_elem string option Hopt) as [Hzero Hsub].
    split; [by apply punct_count_zero|]. split; [done|].
    unfold split_options in Hopt. cbv zeta in Hopt.
    apply list_elem_of_fmap in Hopt as (piece & -> & _).
    split; [apply strip_head|apply strip_last].
Qed.

(** X9. [get_potential_options] never returns the empty set and brings no
    character that is not in the candidate; when the matched value does
    not occur in the candidate, the candidate alone is returned. *)
Theorem get_potential_options_total (bnf matched_value : str) :
  get_potential_options bnf matched_value ≠ ∅ ∧
  (∀ x, x ∈ get_potential_options bnf matched_value → x ⊆ bnf) ∧
  ((∀ p q, bnf ≠ p ++ matched_value ++ q) →
   get_potential_options bnf matched_value = {[bnf]}).
Proof.
  split; [apply get_potential_options_nonempty|]. split.
  - intros x (option & [_ Hsub]%split_options_elem & Hx)%get_potential_options_cases.
    destruct Hx as [(p & q & -> & ->)|[-> _]]; [|done].
    intros a. rewrite !elem_of_app. intros [?|[?%Hsub|?]]; auto.
  - apply get_potential_options_absent.
Qed.

(** * More on the word-only check *)

Section word_check.

Variable LANGUAGE_UNICODE_ALPHABET : str → option (ascii → bool).
Variable order : gset str → list str.
Hypothesis order_perm : ∀ X, order X ≡ₚ elements X.

Lemma words_only_false L s :
  words_only L s = Returns false ↔
  (∃ a, a ∈ s ∧ L a = true) ∧ (∃ a, a ∈ s ∧ L a = false).
Proof.
  split.
  - intros H. split.
    + destruct (decide (Forall (λ a, L a = false) s)) as [Hall|Hnot].
      { apply words_only_raises in Hall. congruence. }
      apply not_Forall_Exists in Hnot; [|apply _].
      destruct (proj1 (Exists_exists _ _) Hnot) as (a & Ha & HLa). simpl in HLa.
      exists a. split; [done|]. by destruct (L a).
    + destruct (decide (Forall (λ a, L a = true) s)) as [Hall|Hnot].
      { destruct s as [|a s]; [by vm_compute in H|].
        assert (words_only L (a :: s) = Returns true); [|congruence].
        by apply words_only_true. }
      apply not_Forall_Exists in Hnot; [|apply _].
      destruct (proj1 (Exists_exists _ _) Hnot) as (a & Ha & HLa). simpl in HLa.
      exists a. split; [done|]. by destruct (L a).
  - intros [(a & Ha & HLa) (b & Hb & HLb)].
    destruct (words_only L s) as [[]| |] eqn:E; [|done| |].
    + apply words_only_true in E as [_ E]. rewrite Forall_forall in E.
      rewrite (E b Hb) in HLb. done.
    + apply words_only_raises in E. rewrite Forall_forall in E.
      rewrite (E a Ha) in HLa. done.
    + unfold words_only in E. by destruct (search _ s).
Qed.

(** X2. For a supported language, [is_words_only] logs nothing and answers
    [True] exactly on the non-empty strings made of characters of the
    alphabet, raises exactly on the strings without any character of the
    alphabet, the empty string among them, and answers [False] exactly on
    the strings that mix characters of the alphabet with others. *)
Theorem is_words_only_cases (string language_code : str) (L : ascii → bool) :
  LANGUAGE_UNICODE_ALPHABET (lower language_code) = Some L →
  (is_words_only LANGUAGE_UNICODE_ALPHABET string language_code = (Returns true, []) ↔
   string ≠ [] ∧ Forall (λ a, L a = true) string) ∧
  (is_words_only LANGUAGE_UNICODE_ALPHABET string language_code = (Raises, []) ↔
   Forall (λ a, L a = false) string) ∧
  (is_words_only LANGUAGE_UNICODE_ALPHABET string language_code = (Returns false, []) ↔
   (∃ a, a ∈ string ∧ L a = true) ∧ (∃ a, a ∈ string ∧ L a = false)).
Proof.
  intros HL. rewrite (is_words_only_supported _ _ _ L) by done.
  rewrite <- words_only_true, <- words_only_raises, <- words_only_false.
  repeat split; by intros [= ->] || by intros ->.
Qed.

(** X3. For a language that is not supported nothing raises:
    [is_words_only] logs the error and answers [False], and
    [are_all_words_only] stops at the first sentence with that one error
    logged and [False]; on the empty set it answers [True] and logs
    nothing, the language not being looked at. *)
Theorem word_check_unsupported_language (string language_code : str) (W : gset str) :
  LANGUAGE_UNICODE_ALPHABET (lower language_code) = None →
  is_words_only LANGUAGE_UNICODE_ALPHABET string language_code
  = (Returns false, [LanguageNotSupported]) ∧
  are_all_words_only LANGUAGE_UNICODE_ALPHABET order W language_code
  = if decide (W = ∅) then (Returns true, []) else (Returns false, [LanguageNotSupported]).
Proof.
  intros HL. split; [unfold is_words_only; by rewrite HL|].
  unfold are_all_words_only. destruct (decide (W = ∅)) as [->|HW].
  - assert (order ∅ = []) as ->; [|done].
    apply Permutation_nil_r. by rewrite order_perm, elements_empty.
  - destruct (order W) as [|s l] eqn:E.
    + destruct HW. apply leibniz_equiv, elements_empty_inv.
      apply Permutation_nil_r. by rewrite <- order_perm, E.
    + simpl. unfold is_words_only. by rewrite lower_idemp, HL.
Qed.

(** X4. For a supported language, [are_all_words_only] logs nothing and
    answers [True] exactly when every sentence of the set is a non-empty
    string of characters of the alphabet, in whatever order the set is
    visited; so it does on the empty set. *)
Theorem are_all_words_only_true (W : gset str) (language_code : str) (L : ascii → bool) :
  LANGUAGE_UNICODE_ALPHABET (lower language_code) = Some L →
  (are_all_words_only LANGUAGE_UNICODE_ALPHABET order W language_code).2 = [] ∧
  ((are_all_words_only LANGUAGE_UNICODE_ALPHABET order W language_code).1 = Returns true ↔
   ∀ s, s ∈ W → s ≠ [] ∧ Forall (λ a, L a = true) s).
Proof.
  intros HL. unfold are_all_words_only.
  rewrite (are_all_words_only_loop_supported _ _ _ L) by done. split; [done|]. simpl.
  rewrite all_words_only_true, Forall_forall. split.
  - intros H s Hs. apply words_only_true, H. by apply (elem_of_order order order_perm).
  - intros H s Hs. apply words_only_true, H. by apply (elem_of_order order order_perm) in Hs.
Qed.

End word_check.

Lemma is_words_only_cases_witness :
  (is_words_only sample_alphabet $"a b" $"EN" = (Returns true, []) ↔
   $"a b" ≠ [] ∧ Forall (λ a, english a = true) $"a b") ∧
  (is_words_only sample_alphabet $"a b" $"EN" = (Raises, []) ↔
   Forall (λ a, english a = false) $"a b") ∧
  (is_words_only sample_alphabet $"a b" $"EN" = (Returns false, []) ↔
   (∃ a, a ∈ $"a b" ∧ english a = true) ∧ (∃ a, a ∈ $"a b" ∧ english a = false)).
Proof. apply (is_words_only_cases sample_alphabet $"a b" $"EN" english). reflexivity. Defined.

Lemma word_check_unsupported_language_witness :
  is_words_only sample_alphabet $"a" $"xx" = (Returns false, [LanguageNotSupported]) ∧
  are_all_words_only sample_alphabet elements {[ $"a"; $"b" ]} $"xx"
  = if decide (({[ $"a"; $"b" ]} : gset str) = ∅) then (Returns true, [])
    else (Returns false, [LanguageNotSupported]).
Proof.
  apply (word_check_unsupported_language sample_alphabet elements (λ X, reflexivity _)
           $"a" $"xx" {[ $"a"; $"b" ]}).
  reflexivity.
Defined.

Lemma are_all_words_only_true_witness :
  (are_all_words_only sample_alphabet elements {[ $"a"; $"b c" ]} $"en").2 = [] ∧
  ((are_all_words_only sample_alphabet elements {[ $"a"; $"b c" ]} $"en").1 = Returns true ↔
   ∀ s, s ∈ ({[ $"a"; $"b c" ]} : gset str) → s ≠ [] ∧ Forall (λ a, english a = true) s).
Proof.
  apply (are_all_words_only_true sample_alphabet elements (λ X, reflexivity _)
           {[ $"a"; $"b c" ]} $"en" english).
  reflexivity.
Defined.

(** * More on the three loops *)

Section loops_extras.

Variable L : ascii → bool.

(** The matcher starts as far to the left as a match can start. *)
Lemma search_leftmost r : ∀ s m,
  search r s = Some m →
  ∃ p q, s = p ++ m ++ q ∧ matches r m ∧
         ∀ p' m' q', s = p' ++ m' ++ q' → matches r m' → length p ≤ length p'.
Proof.
  induction s as [|x s IH]; intros m H; rewrite search_unfold in H;
    destruct (backtrack r _ Some) as [rest|] eqn:E; try done.
  - injection H as <-.
    apply backtrack_sound in E as (s1 & s2 & Hs & Hm & [= ->]).
    symmetry in Hs. apply app_eq_nil in Hs as [-> ->]. exists [], [].
    split; [done|]. split; [done|]. intros; simpl; lia.
  - injection H as <-. apply backtrack_sound in E as (s1 & s2 & Hs & Hm & [= ->]).
    exists [], rest. rewrite Hs.
    rewrite (take_app_length' s1 rest);
      [|apply (f_equal length) in Hs; rewrite length_app in Hs; simpl in Hs; lia].
    split; [done|]. split; [done|]. intros; simpl; lia.
  - apply IH in H as (p & q & -> & Hm & Hmin). exists (x :: p), q.
    split; [done|]. split; [done|]. intros [|x' p'] m' q' Hs Hm'.
    + simpl in Hs. destruct (backtrack_complete r m' q' Some q' Hm' eq_refl) as [e He].
      rewrite <- Hs in He. congruence.
    + injection Hs as -> Hs. simpl. apply (Hmin _ _ _ Hs) in Hm'. lia.
Qed.

Lemma search_delimited_leftmost o cl c span :
  alphabet_without_brackets L →
  search (Seq (Lit o) (Seq (alternation L) (Lit cl))) c = Some span →
  leftmost_atomic_span L o cl c span.
Proof.
  intros HL (p & q & Hc & (mid & Hspan & Hmid)%matches_delimited & Hmin)%search_leftmost.
  exists p, mid, q. split; [done|]. split; [done|]. split; [done|]. split.
  - intros a Ha. rewrite Forall_forall in Hmid. destruct (Hmid a Ha) as [HLa| ->]; [|done].
    destruct (is_bracket a) eqn:E; [|done]. apply HL in E. congruence.
  - intros p' mid' q' Hc' Hmid'. apply (Hmin p' (o :: mid' ++ [cl]) q' Hc').
    apply matches_delimited. by exists mid'.
Qed.

Lemma search_delimited_found o cl c :
  is_Some (search (Seq (Lit o) (Seq (alternation L) (Lit cl))) c) ↔
  ∃ p mid q, c = p ++ (o :: mid ++ [cl]) ++ q ∧ Forall (letter_or_pipe L) mid.
Proof.
  split.
  - intros [span (p & q & mid & -> & -> & Hmid)%search_delimited]. by exists p, mid, q.
  - intros (p & mid & q & -> & Hmid). apply search_complete, matches_delimited.
    by exists mid.
Qed.

End loops_extras.

(** X10. The first loop, without the pattern: a candidate that is a
    non-empty string of characters of the alphabet and pipes is replaced by
    its alternatives; every other candidate, the empty string and any
    candidate with a bracket or a character foreign to the alphabet among
    them, is passed on as it is. *)
Theorem expand_options_cases (L : ascii → bool) (option_expansions : gset str)
    (expanding : str) :
  expand_options L option_expansions expanding =
  if decide (expanding ≠ [] ∧ Forall (letter_or_pipe L) expanding)
  then option_expansions ∪ list_to_set (split_options expanding)
  else option_expansions ∪ {[expanding]}.
Proof.
  unfold expand_options, OPTIONS_REGEX.
  destruct (fullmatch (alternation L) expanding) as [m|] eqn:E.
  - apply fullmatch_sound in E as [-> Hm%matches_alternation].
    destruct (decide (expanding = [])) as [->|Hne].
    + rewrite decide_False; [done|]. by intros [? _].
    + by rewrite decide_True.
  - rewrite decide_False; [done|]. intros [_ Hm%matches_alternation].
    apply fullmatch_complete in Hm. congruence.
Qed.

(** X11. The span the second loop takes for the atomic group, and the one
    the third loop takes for the atomic optional, for an alphabet without
    brackets: it is a span of the candidate made of the two delimiters
    around characters of the alphabet and pipes, with no bracket inside,
    and no span of that form starts further to the left. *)
Theorem atomic_spans_leftmost_innermost (L : ascii → bool) (c : str) :
  alphabet_without_brackets L →
  (∀ group, search (GROUPS_REGEX L) c = Some group →
            leftmost_atomic_span L "(" ")" c group) ∧
  (∀ optional, search (OPTIONALS_REGEX L) c = Some optional →
               leftmost_atomic_span L "[" "]" c optional).
Proof.
  intros HL. split; intros span; by apply search_delimited_leftmost.
Qed.

Lemma atomic_spans_leftmost_innermost_witness :
  (∀ group, search (GROUPS_REGEX english) $"((a|b) (c))" = Some group →
            leftmost_atomic_span english "(" ")" $"((a|b) (c))" group) ∧
  (∀ optional, search (OPTIONALS_REGEX english) $"((a|b) (c))" = Some optional →
               leftmost_atomic_span english "[" "]" $"((a|b) (c))" optional).
Proof.
  apply (atomic_spans_leftmost_innermost english $"((a|b) (c))").
  exact english_without_brackets.
Defined.

(** X12. The second loop finds a group exactly when the candidate has a
    pair of parentheses around characters of the alphabet and pipes only,
    and the third loop an optional exactly when it has such a pair of
    square brackets; otherwise the candidate is passed on as it is. *)
Theorem atomic_spans_found (L : ascii → bool) (c : str) :
  (is_Some (search (GROUPS_REGEX L) c) ↔
   ∃ p mid q, c = p ++ ("(" :: mid ++ [")"]) ++ q ∧ Forall (letter_or_pipe L) mid) ∧
  (is_Some (search (OPTIONALS_REGEX L) c) ↔
   ∃ p mid q, c = p ++ ("[" :: mid ++ ["]"]) ++ q ∧ Forall (letter_or_pipe L) mid) ∧
  (search (GROUPS_REGEX L) c = None → ∀ acc, expand_group L acc c = acc ∪ {[c]}) ∧
  (search (OPTIONALS_REGEX L) c = None → ∀ acc, expand_optionals L acc c = acc ∪ {[c]}).
Proof.
  split; [apply search_delimited_found|]. split; [apply search_delimited_found|].
  split; intros H acc; [unfold expand_group|unfold expand_optionals]; by rewrite H.
Qed.

(** * More on the engine *)

Section engine_extras.

Variable LANGUAGE_UNICODE_ALPHABET : str → option (ascii → bool).
Variable order : gset str → list str.
Hypothesis order_perm : ∀ X, order X ≡ₚ elements X.

Lemma round_of_subseteq L c x : round_of L c x → x ⊆ c.
Proof.
  intros (y & z & Hy & Hz & Hx).
  apply expand_options_elem in Hy as [Hyc _].
  apply expand_group_elem in Hz as [Hzy _].
  apply expand_optionals_elem in Hx as [Hxz _].
  by etrans; [|etrans].
Qed.

Lemma round_of_exists L c : ∃ x, round_of L c x.
Proof.
  destruct (set_choose_L _ (expand_options_nonempty L c)) as [y Hy].
  destruct (set_choose_L _ (expand_group_nonempty L y)) as [z Hz].
  destruct (set_choose_L _ (expand_optionals_nonempty L z)) as [x Hx].
  by exists x, y, z.
Qed.

Lemma expansion_round_nonempty L W W' :
  W ≠ ∅ → (expansion_round order L W).1 = Some W' → W' ≠ ∅.
Proof.
  intros [c Hc]%set_choose_L Hround.
  apply (expansion_round_Some order order_perm) in Hround as [_ HW'].
  destruct (round_of_exists L c) as [x Hx].
  assert (x ∈ W') as Hin by (apply HW'; by exists c).
  intros ->. by apply not_elem_of_empty in Hin.
Qed.

(** X1. With no notation string to expand, and a supported language, the
    call returns the empty list and logs the no-input error, once. *)
Theorem empty_input_returns_empty (frames : nat) (language_code : str) (L : ascii → bool) :
  LANGUAGE_UNICODE_ALPHABET (lower language_code) = Some L →
  expand_bnf_recursive LANGUAGE_UNICODE_ALPHABET order (S frames) ∅ language_code
  = (Returns [], [NoBnfProvided]).
Proof. intros HL. simpl. rewrite HL. by rewrite decide_True. Qed.

(** X13. A round that does not give up on a non-empty working set gives a
    non-empty working set, every candidate of which is made of characters
    of one candidate it started from: the no-input branch is only ever
    taken by the first call, and no round brings in text of its own. *)
Theorem expansion_round_keeps_candidates (L : ascii → bool) (W W' : gset str) :
  W ≠ ∅ → (expansion_round order L W).1 = Some W' →
  W' ≠ ∅ ∧ (expansion_round order L W).2 = [] ∧
  ∀ x, x ∈ W' → ∃ c, c ∈ W ∧ x ⊆ c ∧ punct_count x ≤ punct_count c.
Proof.
  intros HW Hround. split; [by apply (expansion_round_nonempty L W)|].
  pose proof (expansion_round_Some order order_perm L W W' Hround) as [Hlog HW'].
  split; [done|]. intros x (c & Hc & y & z & Hy & Hz & Hx)%HW'. exists c. split; [done|].
  apply expand_options_elem in Hy as [Hyc Hy].
  apply expand_group_elem in Hz as (Hzy & Hzle & _).
  apply expand_optionals_elem in Hx as (Hxz & Hxle & _).
  split; [by etrans; [|etrans]|].
  destruct Hy as [->|Hzero]; lia.
Qed.

(** X14. Every sentence of a returned list is word-only for the language:
    not empty and made of characters of the alphabet. *)
Theorem returned_sentences_word_only (frames : nat) (W : gset str)
    (language_code : str) (L : ascii → bool) (l : list str) :
  LANGUAGE_UNICODE_ALPHABET (lower language_code) = Some L →
  (expand_bnf_recursive LANGUAGE_UNICODE_ALPHABET order frames W language_code).1
  = Returns l →
  ∀ s, s ∈ l →
    is_words_only LANGUAGE_UNICODE_ALPHABET s language_code = (Returns true, []) ∧
    s ≠ [] ∧ Forall (λ a, L a = true) s.
Proof.
  intros HL. revert W. induction frames as [|frames IH]; intros W H s Hs; [done|].
  destruct (decide (W = ∅)) as [->|HW].
  { simpl in H. rewrite HL in H. simpl in H. injection H as <-. by apply elem_of_nil in Hs. }
  rewrite (expand_bnf_recursive_unfold _ _ _ _ _ L) in H by done. cbv zeta in H.
  destruct (expansion_round order L W).1 as [W'|];
    [|injection H as <-; by apply elem_of_nil in Hs].
  destruct (all_words_only L (order W')) as [[]| |] eqn:Hall; simpl in H; try done.
  - injection H as <-. rewrite sorted_Permutation in Hs.
    rewrite all_words_only_true, Forall_forall in Hall. specialize (Hall s Hs).
    rewrite (is_words_only_supported _ _ _ L) by done. rewrite Hall.
    split; [done|]. by apply words_only_true.
  - by apply (IH W').
Qed.

(** X15. Every sentence of a returned list is made of characters of one
    of the notation strings the call was given. *)
Theorem returned_sentences_from_input (frames : nat) (W : gset str)
    (language_code : str) (l : list str) :
  (expand_bnf_recursive LANGUAGE_UNICODE_ALPHABET order frames W language_code).1
  = Returns l →
  ∀ s, s ∈ l → ∃ c, c ∈ W ∧ s ⊆ c.
Proof.
  revert W. induction frames as [|frames IH]; intros W H s Hs; [done|].
  destruct (LANGUAGE_UNICODE_ALPHABET (lower language_code)) as [L|] eqn:HL;
    [|simpl in H; rewrite HL in H; injection H as <-; by apply elem_of_nil in Hs].
  destruct (decide (W = ∅)) as [->|HW].
  { simpl in H. rewrite HL in H. simpl in H. injection H as <-. by apply elem_of_nil in Hs. }
  rewrite (expand_bnf_recursive_unfold _ _ _ _ _ L) in H by done. cbv zeta in H.
  destruct (expansion_round order L W).1 as [W'|] eqn:Hround;
    [|injection H as <-; by apply elem_of_nil in Hs].
  pose proof (expansion_round_Some order order_perm L W W' Hround) as [_ HW'].
  destruct (all_words_only L (order W')) as [[]| |] eqn:Hall; simpl in H; try done.
  - injection H as <-. rewrite sorted_Permutation in Hs.
    apply (elem_of_order order order_perm), HW' in Hs as (c & Hc & Hx).
    exists c. split; [done|]. by apply (round_of_subseteq L).
  - destruct (IH W' H s Hs) as (c' & (c & Hc & Hx)%HW' & Hsub).
    exists c. split; [done|]. etrans; [done|]. by apply (round_of_subseteq L).
Qed.

(** X16. For an alphabet without brackets, a round on what a round has
    produced never gives up: validation can only fail in the first round
    of a call. *)
Theorem later_rounds_pass_validation (L : ascii → bool) (W W' : gset str) :
  alphabet_without_brackets L →
  (expansion_round order L W).1 = Some W' →
  (expansion_round order L W').1 ≠ None ∧ ∀ x, x ∈ W' → (validate_bnf_groups x).1 = true.
Proof.
  intros HL Hround.
  pose proof (expansion_round_well_nested order order_perm L HL W W' Hround) as Hwn.
  split; [by apply (expansion_round_total order order_perm)|].
  intros x Hx. by apply validate_bnf_groups_well_nested, Hwn.
Qed.

(** X17. For an alphabet without brackets, a call on a non-empty set of
    valid notation strings never returns the empty list: whatever it
    returns has a sentence in it. *)
Theorem valid_input_returns_sentences (frames : nat) (W : gset str)
    (language_code : str) (L : ascii → bool) (l : list str) :
  LANGUAGE_UNICODE_ALPHABET (lower language_code) = Some L →
  alphabet_without_brackets L → W ≠ ∅ →
  (∀ c, c ∈ W → (validate_bnf_groups c).1 = true) →
  (expand_bnf_recursive LANGUAGE_UNICODE_ALPHABET order frames W language_code).1
  = Returns l →
  l ≠ [].
Proof.
  intros HL HLb. revert W. induction frames as [|frames IH]; intros W HW Hvalid H; [done|].
  rewrite (expand_bnf_recursive_unfold _ _ _ _ _ L) in H by done. cbv zeta in H.
  destruct (expansion_round order L W).1 as [W'|] eqn:Hround.
  - pose proof (expansion_round_nonempty L W W' HW Hround) as HW'.
    destruct (all_words_only L (order W')) as [[]| |] eqn:Hall; simpl in H; try done.
    + injection H as <-. intros Hnil.
      apply set_choose_L in HW' as [x Hx]. apply (elem_of_order order order_perm) in Hx.
      rewrite <- sorted_Permutation, Hnil in Hx. by apply elem_of_nil in Hx.
    + apply (IH W'); [done| |done]. intros c Hc.
      apply validate_bnf_groups_well_nested.
      by apply (expansion_round_well_nested order order_perm L HLb W W').
  - exfalso. apply (expansion_round_total order order_perm L W); [|done].
    intros c Hc. by apply validate_bnf_groups_well_nested, Hvalid.
Qed.

End engine_extras.

Section order_independence.

Variable LANGUAGE_UNICODE_ALPHABET : str → option (ascii → bool).
Variables order1 order2 : gset str → list str.
Hypothesis order1_perm : ∀ X, order1 X ≡ₚ elements X.
Hypothesis order2_perm : ∀ X, order2 X ≡ₚ elements X.

(** X18. The list a call returns depends neither on the order in which
    the sets are visited nor on the depth of recursion it is allowed: two
    calls on the same working set and language that both return, return
    the same list. *)
Theorem returned_list_independent_of_order (frames1 frames2 : nat) (W : gset str)
    (language_code : str) (l1 l2 : list str) :
  (expand_bnf_recursive LANGUAGE_UNICODE_ALPHABET order1 frames1 W language_code).1
  = Returns l1 →
  (expand_bnf_recursive LANGUAGE_UNICODE_ALPHABET order2 frames2 W language_code).1
  = Returns l2 →
  l1 = l2.
Proof.
  revert frames2 W. induction frames1 as [|frames1 IH]; intros [|frames2] W H1 H2; try done.
  destruct (LANGUAGE_UNICODE_ALPHABET (lower language_code)) as [L|] eqn:HL;
    [|simpl in H1, H2; rewrite HL in H1, H2; simpl in H1, H2; congruence].
  destruct (decide (W = ∅)) as [->|HW].
  { simpl in H1, H2. rewrite HL in H1, H2. rewrite decide_True in H1, H2 by done.
    simpl in H1, H2. congruence. }
  rewrite (expand_bnf_recursive_unfold _ _ _ _ _ L) in H1 by done.
  rewrite (expand_bnf_recursive_unfold _ _ _ _ _ L) in H2 by done. cbv zeta in H1, H2.
  rewrite (expansion_round_order order1 order2 order1_perm order2_perm) in H1.
  destruct (expansion_round order2 L W).1 as [W'|]; [|simpl in H1, H2; congruence].
  pose proof (all_words_only_true_order order1 order2 order1_perm order2_perm L W') as H12.
  pose proof (all_words_only_true_order order2 order1 order2_perm order1_perm L W') as H21.
  destruct (all_words_only L (order1 W')) as [[]| |] eqn:Hall1; simpl in H1; try done.
  - rewrite H12 in H2 by done. simpl in H2.
    injection H1 as <-. injection H2 as <-.
    apply sorted_order. by rewrite order1_perm, order2_perm.
  - destruct (all_words_only L (order2 W')) as [[]| |] eqn:Hall2; simpl in H2; try done.
    + by specialize (H21 eq_refl).
    + by apply (IH frames2 W').
Qed.

End order_independence.

Lemma empty_input_returns_empty_witness :
  expand_bnf_recursive sample_alphabet elements 1 ∅ $"en" = (Returns [], [NoBnfProvided]).
Proof.
  apply (empty_input_returns_empty sample_alphabet elements 0 $"en" english). reflexivity.
Defined.

Lemma expansion_round_keeps_candidates_witness :
  ({[ $"a "; $"a b" ]} : gset str) ≠ ∅ ∧
  (expansion_round elements english {[ $"a [b]" ]}).2 = [] ∧
  ∀ x, x ∈ ({[ $"a "; $"a b" ]} : gset str) →
    ∃ c, c ∈ ({[ $"a [b]" ]} : gset str) ∧ x ⊆ c ∧ punct_count x ≤ punct_count c.
Proof.
  apply (expansion_round_keeps_candidates elements (λ X, reflexivity _) english
           {[ $"a [b]" ]} {[ $"a "; $"a b" ]}).
  - intros H. assert ($"a [b]" ∈ (∅ : gset str)) as Hin by (rewrite <- H; set_solver).
    by apply not_elem_of_empty in Hin.
  - vm_compute. reflexivity.
Defined.

Lemma returned_sentences_word_only_witness :
  is_words_only sample_alphabet $"b" $"en" = (Returns true, []) ∧
  $"b" ≠ [] ∧ Forall (λ a, english a = true) $"b".
Proof.
  apply (returned_sentences_word_only sample_alphabet elements
           3 {[ $"(a|b|c)" ]} $"en" english [ $"a"; $"b"; $"c" ]).
  - reflexivity.
  - vm_compute. reflexivity.
  - apply (bool_decide_unpack _). vm_compute. exact I.
Defined.

Lemma returned_sentences_from_input_witness :
  ∃ c, c ∈ ({[ $"(a|b|c)" ]} : gset str) ∧ $"b" ⊆ c.
Proof.
  apply (returned_sentences_from_input sample_alphabet elements (λ X, reflexivity _)
           3 {[ $"(a|b|c)" ]} $"en" [ $"a"; $"b"; $"c" ]).
  - vm_compute. reflexivity.
  - apply (bool_decide_unpack _). vm_compute. exact I.
Defined.

Lemma later_rounds_pass_validation_witness :
  (expansion_round elements english {[ $"(a) [(b)]" ]}).1 ≠ None ∧
  ∀ x, x ∈ ({[ $"(a) [(b)]" ]} : gset str) → (validate_bnf_groups x).1 = true.
Proof.
  apply (later_rounds_pass_validation elements (λ X, reflexivity _) english
           {[ $"((a)) [(b)]" ]} {[ $"(a) [(b)]" ]}).
  - exact english_without_brackets.
  - vm_compute. reflexivity.
Defined.

Lemma valid_input_returns_sentences_witness : [ $"a"; $"b"; $"c" ] ≠ [].
Proof.
  apply (valid_input_returns_sentences sample_alphabet elements (λ X, reflexivity _)
           3 {[ $"(a|b|c)" ]} $"en" english).
  - reflexivity.
  - exact english_without_brackets.
  - intros H. assert ($"(a|b|c)" ∈ (∅ : gset str)) as Hin by (rewrite <- H; set_solver).
    by apply not_elem_of_empty in Hin.
  - intros c Hc. apply elem_of_singleton in Hc. subst c. reflexivity.
  - vm_compute. reflexivity.
Defined.

Lemma returned_list_independent_of_order_witness :
  [ $"a"; $"b"; $"c" ] = [ $"a"; $"b"; $"c" ].
Proof.
  apply (returned_list_independent_of_order sample_alphabet elements
           (λ X, reverse (elements X)) (λ X, reflexivity _)
           (λ X, reverse_Permutation (elements X)) 2 5 {[ $"(a|b|c)" ]} $"en").
  - vm_compute. reflexivity.
  - vm_compute. reflexivity.
Defined.
